(** * Inductively pierced neural codes and their toric tables

    A shallow embedding of the notebook [neural_toric_examples.ipynb]:
    the recursive enumerator [make_induct_one_pierced], the reordering
    [reverse_code], the labelling [make_variable_names_from_matrix] and the
    table assembly [make_table_toric_degrees].

    Python integers are [Z], Python lists are [list], Python strings are
    [string].  A Python exception is an [Err] in the [result] monad; the
    [for] loops of the notebook are folds that thread the lists they append
    to. *)

From Stdlib Require Import String Ascii DecimalString.
From Stdlib Require Import ZArith Bool List Lia.
Import ListNotations.

Local Open Scope Z_scope.
Local Open Scope list_scope.

Set Implicit Arguments.

(** ** Exceptions and the [result] monad *)

(** The exceptions the modelled code can raise.  [RecursionError] is what
    CPython raises when the call stack is exhausted; [ExternalError] stands
    for anything raised inside the computer-algebra system. *)
Inductive error : Type :=
| IndexError
| ValueError
| RecursionError
| ExternalError.

Inductive result (A : Type) : Type :=
| Ok (a : A)
| Err (e : error).

Arguments Ok {A} a.
Arguments Err {A} e.

Definition bind {A B : Type} (r : result A) (k : A -> result B) : result B :=
  match r with
  | Ok a => k a
  | Err e => Err e
  end.

Notation "x <- r ;; k" := (bind r (fun x => k))
  (at level 61, r at next level, right associativity).

(** A [for x in xs: body] loop over an accumulator; an exception raised by
    the body leaves the loop. *)
Fixpoint for_in {A S : Type} (xs : list A) (body : A -> S -> result S) (s : S)
  : result S :=
  match xs with
  | [] => Ok s
  | x :: xs' => s' <- body x s ;; for_in xs' body s'
  end.

(** ** Python lists *)

Module Py.

(** Position designated by a Python index [i] in a sequence of length
    [len]; negative indices count from the end. *)
Definition position (len : nat) (i : Z) : option nat :=
  if (0 <=? i) && (i <? Z.of_nat len) then Some (Z.to_nat i)
  else if (i <? 0) && (- Z.of_nat len <=? i) then Some (Z.to_nat (Z.of_nat len + i))
  else None.

(** [l[i]] *)
Definition getitem {A : Type} (l : list A) (i : Z) : result A :=
  match position (length l) i with
  | Some k =>
      match nth_error l k with
      | Some x => Ok x
      | None => Err IndexError
      end
  | None => Err IndexError
  end.

Fixpoint update {A : Type} (l : list A) (k : nat) (v : A) : list A :=
  match l, k with
  | [], _ => []
  | _ :: l', O => v :: l'
  | x :: l', S k' => x :: update l' k' v
  end.

(** [l[i] = v] on a copy of [l] *)
Definition setitem {A : Type} (l : list A) (i : Z) (v : A) : result (list A) :=
  match position (length l) i with
  | Some k => Ok (update l k v)
  | None => Err IndexError
  end.

(** [l.append(x)] *)
Definition append {A : Type} (l : list A) (x : A) : list A := l ++ [x].

(** [range(lo, hi)] *)
Definition range (lo hi : Z) : list Z :=
  map (fun k => lo + Z.of_nat k) (seq 0 (Z.to_nat (hi - lo))).

(** [==] on lists of integers *)
Fixpoint list_eqb (u v : list Z) : bool :=
  match u, v with
  | [], [] => true
  | x :: u', y :: v' => (x =? y) && list_eqb u' v'
  | _, _ => false
  end.

(** [x in l] for a list of lists of integers *)
Definition contains (l : list (list Z)) (x : list Z) : bool :=
  existsb (list_eqb x) l.

(** [str(z)] for an integer *)
Definition str (z : Z) : string := NilZero.string_of_int (Z.to_int z).

(** [s[:-1]] for a string: all but the last character, and the empty
    string for the empty string. *)
Fixpoint drop_last (s : string) : string :=
  match s with
  | EmptyString => EmptyString
  | String c EmptyString => EmptyString
  | String c s' => String c (drop_last s')
  end.

(** [max(l)] for a list of integers; [max([])] raises [ValueError]. *)
Definition max (l : list Z) : result Z :=
  match l with
  | [] => Err ValueError
  | x :: l' => Ok (fold_left Z.max l' x)
  end.

End Py.

(** ** The code enumerator *)

Abbreviation Codeword := (list Z) (only parsing).
Abbreviation Code := (list (list Z)) (only parsing).

Section Piercings.

(** The number of neurons of the codes being built. *)
Variable n : Z.

(** The version of [code] with a zero added to the end of every codeword. *)
Definition inflate_of (code : Code) : Code :=
  fold_left (fun inflate codeword => Py.append inflate (Py.append codeword 0))
            code [].

(** The loop [for d in code] that appends one 0-piercing per codeword. *)
Definition zero_piercings_loop (code inflate : Code) (zero_piercings : list Code)
  : list Code :=
  fold_left (fun zero_piercings d =>
               let new := Py.append d 1 in
               let newcode := Py.append inflate new in
               Py.append zero_piercings newcode)
            code zero_piercings.

(** The codewords of [code] whose coordinate [i] is 1. *)
Definition chi_of (code : Code) (i : Z) : result (list Codeword) :=
  for_in code
         (fun codeword chi =>
            x <- Py.getitem codeword i ;;
            Ok (if x =? 1 then Py.append chi codeword else chi))
         [].

(** The pairs [(partner1, partner2)] that differ only at [i] and both lie
    in [code]. *)
Definition pairs_of (code : Code) (chi : list Codeword) (i : Z)
  : result (list (Codeword * Codeword)) :=
  for_in chi
         (fun codeword pairs =>
            let partner1 := codeword in
            partner2 <- Py.setitem codeword i 0 ;;
            Ok (if Py.contains code partner2
                then Py.append pairs (partner1, partner2)
                else pairs))
         [].

(** The loop [for pair in pairs] that appends one 1-piercing per pair. *)
Definition pierce_pairs (inflate : Code) (pairs : list (Codeword * Codeword))
           (one_piercings : list Code) : list Code :=
  fold_left (fun one_piercings pair =>
               let p0 := Py.append (fst pair) 1 in
               let p1 := Py.append (snd pair) 1 in
               let newcode := inflate ++ [p1; p0] in
               Py.append one_piercings newcode)
            pairs one_piercings.

(** The loop [for i in range(0, n-1)]. *)
Definition one_piercings_loop (code inflate : Code) (one_piercings : list Code)
  : result (list Code) :=
  for_in (Py.range 0 (n - 1))
         (fun i one_piercings =>
            chi <- chi_of code i ;;
            pairs <- pairs_of code chi i ;;
            Ok (pierce_pairs inflate pairs one_piercings))
         one_piercings.

(** The body of [for code in smaller_codes], on the pair
    [(zero_piercings, one_piercings)]. *)
Definition pierce_code (code : Code) (acc : list Code * list Code)
  : result (list Code * list Code) :=
  let inflate := inflate_of code in
  let zero_piercings := zero_piercings_loop code inflate (fst acc) in
  one_piercings <- one_piercings_loop code inflate (snd acc) ;;
  Ok (zero_piercings, one_piercings).

(** The [else] branch, given the result of the recursive call. *)
Definition pierce_all (smaller_codes : list Code) : result (list Code) :=
  acc <- for_in smaller_codes pierce_code ([], []) ;;
  Ok (fst acc ++ snd acc).

End Piercings.

(** [make_induct_one_pierced(n)].  The recursion of the notebook is on
    [n - 1] and stops only at [n == 1]; [fuel] bounds the depth of the call
    stack, and exhausting it is [RecursionError]. *)
Fixpoint make_induct_one_pierced (fuel : nat) (n : Z) : result (list Code) :=
  match fuel with
  | O => Err RecursionError
  | S fuel' =>
      if n =? 1 then Ok [[[0]; [1]]]
      else
        smaller_codes <- make_induct_one_pierced fuel' (n - 1) ;;
        pierce_all n smaller_codes
  end.


(** ** Matrices of the computer-algebra system

    The notebook uses three operations of Sage's integer matrices: the
    constructor [matrix] from a list of rows, [transpose] and [columns].  A
    matrix keeps its dimensions, so that a matrix without rows still has its
    columns counted after a transposition. *)

Record Matrix : Type := mkMatrix {
  nrows : nat;
  ncols : nat;
  entries : list (list Z)
}.

(** [matrix(rows)]: the rows must all have the length of the first one; the
    empty list gives the 0 x 0 matrix. *)
Definition matrix (rows : list (list Z)) : result Matrix :=
  match rows with
  | [] => Ok (mkMatrix 0 0 [])
  | r :: _ =>
      if forallb (fun r' => Nat.eqb (length r') (length r)) rows
      then Ok (mkMatrix (length rows) (length r) rows)
      else Err ValueError
  end.

Definition column (m : Matrix) (j : nat) : list Z :=
  map (fun row => nth j row 0) (entries m).

(** [m.columns()] *)
Definition columns (m : Matrix) : list (list Z) :=
  map (column m) (seq 0 (ncols m)).

(** [m.transpose()] *)
Definition transpose (m : Matrix) : Matrix :=
  mkMatrix (ncols m) (nrows m) (columns m).

(** ** The matrix and label formatter *)

(** The inner loop of [make_variable_names_from_matrix]: ['y'] followed by
    [str] of every entry of the column. *)
Definition variable_name (col : list Z) : string :=
  fold_left (fun name position => (name ++ Py.str position)%string) col "y"%string.

Definition make_variable_names_from_matrix (mat : Matrix) : string :=
  let names :=
    fold_left (fun names col => (names ++ variable_name col ++ ",")%string)
              (columns mat) ""%string in
  Py.drop_last names.

(** [reverse_code(code)]: [code[0]] raises [IndexError] on the empty list. *)
Definition reverse_code {A : Type} (code : list A) : result (list A) :=
  c0 <- Py.getitem code 0 ;;
  let len := Z.of_nat (length code) in
  for_in (Py.range 0 (len - 1))
         (fun i results =>
            x <- Py.getitem code (len - 1 - i) ;;
            Ok (Py.append results x))
         [c0].

(** [matrix(reverse_code(code)[1:]).transpose()] *)
Definition matrix_of_code (code : Code) : result Matrix :=
  reversed <- reverse_code code ;;
  mat <- matrix (tl reversed) ;;
  Ok (transpose mat).

(** The matrix of a code together with the names of its columns, as
    [make_table_toric_degrees] builds them before it calls [ToricIdeal]. *)
Definition matrix_and_names (code : Code) : result (Matrix * string) :=
  mat <- matrix_of_code code ;;
  Ok (mat, make_variable_names_from_matrix mat).

(** ** The table of toric ideals *)

(** [table(rows)] of the computer-algebra system.  Its constructor reads
    [rows[0]] to count the columns, which is an [IndexError] on the empty
    list; otherwise the table shows the rows as they are, and they stand for
    it here. *)
Definition table {R : Type} (rows : list R) : result (list R) :=
  match rows with
  | [] => Err IndexError
  | _ :: _ => Ok rows
  end.

Section ToricTable.

(** The toric ideals, their generators and their Groebner bases belong to
    the computer-algebra system; the notebook only calls them. *)
Variables ideal polynomial basis : Type.
Variable ToricIdeal : Matrix -> string -> result ideal.
Variable gens : ideal -> list polynomial.
Variable degree : polynomial -> Z.
Variable groebner_basis : ideal -> basis.

(** A row [[mat, toric_ideal.groebner_basis(), max(degrees)]] of the
    table. *)
Record table_row : Type := mkRow {
  row_matrix : Matrix;
  row_groebner_basis : basis;
  row_max_degree : Z
}.

(** [list(map(lambda x: x.degree(), toric_ideal.gens()))] *)
Definition degrees_of (toric_ideal : ideal) : list Z :=
  map degree (gens toric_ideal).

(** The body of [for code in code_list], on the pair
    [(toric_ideals, clean)]. *)
Definition table_step (code : Code) (acc : list ideal * list table_row)
  : result (list ideal * list table_row) :=
  mat <- matrix_of_code code ;;
  toric_ideal <- ToricIdeal mat (make_variable_names_from_matrix mat) ;;
  let toric_ideals := Py.append (fst acc) toric_ideal in
  let degrees := degrees_of toric_ideal in
  if negb (Py.list_eqb degrees [-1]) then
    max_degree <- Py.max degrees ;;
    Ok (toric_ideals,
        Py.append (snd acc) (mkRow mat (groebner_basis toric_ideal) max_degree))
  else Ok (toric_ideals, snd acc).

(** The list [clean] when the loop [for code in code_list] ends. *)
Definition clean_rows (code_list : list Code) : result (list table_row) :=
  acc <- for_in code_list table_step ([], []) ;;
  Ok (snd acc).

(** [make_table_toric_degrees(code_list)]: the loop, then [table(clean)]. *)
Definition make_table_toric_degrees (code_list : list Code)
  : result (list table_row) :=
  clean <- clean_rows code_list ;;
  table clean.

End ToricTable.

(** ** The operations as the specification words them

    Each definition below follows a sentence of the specification; the
    theorems compare them with the loops above. *)

Module Spec.

(** [inflate(C)]: every codeword of [C] with a trailing 0 appended. *)
Definition inflate (C : Code) : Code := map (fun c => c ++ [0]) C.

(** One zero-piercing per codeword [d] of [C]: [inflate(C)] plus [d] with
    a trailing 1. *)
Definition zero_piercings (C : Code) : list Code :=
  map (fun d => inflate C ++ [d ++ [1]]) C.

(** The codewords of [C] with a 1 at position [i]. *)
Definition chi (C : Code) (i : nat) : list Codeword :=
  filter (fun c => nth i c 0 =? 1) C.

(** Each codeword of [chi] with its partner (position [i] set to 0), kept
    when the partner is in [C]. *)
Definition pairs (C : Code) (i : nat) : list (Codeword * Codeword) :=
  filter (fun p => Py.contains C (snd p))
         (map (fun c => (c, Py.update c i 0)) (chi C i)).

(** The one-piercings of [C], a code on [k] neurons: for every neuron and
    every pair, [inflate(C)] plus partner2 and partner1 with a trailing 1. *)
Definition one_piercings (k : nat) (C : Code) : list Code :=
  flat_map (fun i => map (fun p => inflate C ++ [snd p ++ [1]; fst p ++ [1]])
                         (pairs C i))
           (seq 0 k).

(** All zero-piercings followed by all one-piercings of the codes on [k]
    neurons. *)
Definition pierce (k : nat) (smaller_codes : list Code) : list Code :=
  flat_map zero_piercings smaller_codes
  ++ flat_map (one_piercings k) smaller_codes.

(** The codes on [k + 1] neurons. *)
Fixpoint pierced_codes (k : nat) : list Code :=
  match k with
  | O => [[[0]; [1]]]
  | S k' => pierce (S k') (pierced_codes k')
  end.

(** First element unchanged, the remaining elements in reverse order. *)
Definition reverse_code {A : Type} (code : list A) : list A :=
  match code with
  | [] => []
  | first :: remaining => first :: rev remaining
  end.

(** A bit as a digit character. *)
Definition digit (b : Z) : string := if b =? 0 then "0"%string else "1"%string.

(** ["y"] followed by the bits of a column. *)
Definition name_of_column (col : list Z) : string :=
  ("y" ++ String.concat "" (map digit col))%string.

(** The names of the columns joined with commas, no trailing comma. *)
Definition make_variable_names (mat : Matrix) : string :=
  String.concat "," (map name_of_column (columns mat)).

(** The all-zero codeword on [k] neurons. *)
Definition zero_codeword (k : nat) : Codeword := repeat 0 k.

Section Table.

Variables ideal polynomial basis : Type.
Variable ToricIdeal : Matrix -> string -> result ideal.
Variable gens : ideal -> list polynomial.
Variable degree : polynomial -> Z.
Variable groebner_basis : ideal -> basis.

(** [compute_toric_record(code)]: no row when the degree list is exactly
    [[-1]], otherwise the matrix, the basis and the maximum degree. *)
Definition compute_toric_record (code : Code)
  : result (option (table_row basis)) :=
  mat <- matrix_of_code code ;;
  toric_ideal <- ToricIdeal mat (make_variable_names_from_matrix mat) ;;
  let degrees := map degree (gens toric_ideal) in
  if Py.list_eqb degrees [-1] then Ok None
  else
    max_degree <- Py.max degrees ;;
    Ok (Some (mkRow mat (groebner_basis toric_ideal) max_degree)).

(** [compute_toric_record] on every code, in order; the first failure is
    surfaced. *)
Fixpoint records_of (code_list : list Code)
  : result (list (option (table_row basis))) :=
  match code_list with
  | [] => Ok []
  | code :: rest =>
      r <- compute_toric_record code ;;
      rs <- records_of rest ;;
      Ok (r :: rs)
  end.

(** The rows that were not discarded, in order. *)
Fixpoint kept {R : Type} (rs : list (option R)) : list R :=
  match rs with
  | [] => []
  | Some r :: rs' => r :: kept rs'
  | None :: rs' => kept rs'
  end.

(** [make_table(code_list)] *)
Definition make_table (code_list : list Code) : result (list (table_row basis)) :=
  rs <- records_of code_list ;;
  Ok (kept rs).

End Table.

End Spec.

(** ** Properties of codes and matrices *)

(** Every codeword of [code] has [k] coordinates. *)
Definition codewords_have_length (k : nat) (code : Code) : Prop :=
  Forall (fun c => length c = k) code.

(** The first codeword of [C] is the all-zero codeword on [k] neurons. *)
Definition starts_with_zero (k : nat) (C : Code) : Prop :=
  exists rest, C = Spec.zero_codeword k :: rest.

Definition is_bit (b : Z) : Prop := b = 0 \/ b = 1.

(** The codewords of [C] have [k] coordinates and each of the [k] neurons
    has a 1 in some codeword. *)
Definition every_neuron_active (k : nat) (C : list (list Z)) : Prop :=
  codewords_have_length k C
  /\ forall j, (j < k)%nat -> exists c, In c C /\ nth j c 0 = 1.

(** The matrix of the first cell of the notebook. *)
Definition notebook_matrix : result Matrix :=
  mat <- matrix [[0;0;0;1]; [0;0;1;1]; [0;0;1;0]; [0;1;1;0]; [0;1;0;0];
                 [1;1;0;0]; [1;0;0;0]] ;;
  Ok (transpose mat).

(** The output the notebook shows for [make_induct_one_pierced(3)]. *)
Definition notebook_codes_on_3_neurons : list Code :=
  [ [[0;0;0]; [1;0;0]; [0;1;0]; [0;0;1]];
    [[0;0;0]; [1;0;0]; [0;1;0]; [1;0;1]];
    [[0;0;0]; [1;0;0]; [0;1;0]; [0;1;1]];
    [[0;0;0]; [1;0;0]; [1;1;0]; [0;0;1]];
    [[0;0;0]; [1;0;0]; [1;1;0]; [1;0;1]];
    [[0;0;0]; [1;0;0]; [1;1;0]; [1;1;1]];
    [[0;0;0]; [1;0;0]; [0;1;0]; [1;1;0]; [0;0;1]];
    [[0;0;0]; [1;0;0]; [0;1;0]; [1;1;0]; [1;0;1]];
    [[0;0;0]; [1;0;0]; [0;1;0]; [1;1;0]; [0;1;1]];
    [[0;0;0]; [1;0;0]; [0;1;0]; [1;1;0]; [1;1;1]];
    [[0;0;0]; [1;0;0]; [0;1;0]; [0;0;1]; [1;0;1]];
    [[0;0;0]; [1;0;0]; [0;1;0]; [0;0;1]; [0;1;1]];
    [[0;0;0]; [1;0;0]; [1;1;0]; [0;0;1]; [1;0;1]];
    [[0;0;0]; [1;0;0]; [1;1;0]; [1;0;1]; [1;1;1]];
    [[0;0;0]; [1;0;0]; [0;1;0]; [1;1;0]; [0;0;1]; [1;0;1]];
    [[0;0;0]; [1;0;0]; [0;1;0]; [1;1;0]; [0;1;1]; [1;1;1]];
    [[0;0;0]; [1;0;0]; [0;1;0]; [1;1;0]; [0;0;1]; [0;1;1]];
    [[0;0;0]; [1;0;0]; [0;1;0]; [1;1;0]; [1;0;1]; [1;1;1]] ].

(** A stand-in for the algebra system, to run the table: an ideal is the
    list of the degrees of its generators, [[-1]] when the matrix has no more
    columns than rows. *)
Definition toy_ToricIdeal (mat : Matrix) (names : string) : result (list Z) :=
  Ok (if Nat.leb (ncols mat) (nrows mat) then [-1] else [1; 2]).

(** Two codes on 3 neurons and the table the stand-in gives for them. *)
Definition toy_code_list : list Code :=
  [ [[0;0;0]; [1;0;0]; [0;1;0]; [0;0;1]];
    [[0;0;0]; [1;0;0]; [0;1;0]; [1;1;0]; [0;0;1]] ].

Definition toy_rows : list (table_row nat) :=
  [ mkRow (mkMatrix 3 4 [[0;1;0;1]; [0;1;1;0]; [1;0;0;0]]) 2%nat 2 ].

(** ** The model on the examples of the notebook *)

Example notebook_output_on_3_neurons :
  make_induct_one_pierced 3 3 = Ok notebook_codes_on_3_neurons.
Proof. reflexivity. Qed.

Example notebook_variable_names :
  (mat <- notebook_matrix ;; Ok (make_variable_names_from_matrix mat))
  = Ok "y0001,y0011,y0010,y0110,y0100,y1100,y1000"%string.
Proof. reflexivity. Qed.

Example notebook_first_table_matrix :
  matrix_of_code [[0;0;0]; [1;0;0]; [0;1;0]; [1;1;0]; [0;0;1]]
  = Ok (mkMatrix 3 4 [[0;1;0;1]; [0;1;1;0]; [1;0;0;0]]).
Proof. reflexivity. Qed.

Example recursion_below_one : make_induct_one_pierced 50 0 = Err RecursionError.
Proof. reflexivity. Qed.

Example toy_table :
  make_table_toric_degrees toy_ToricIdeal (fun I => I) (fun d => d)
                           (fun I => length I)
                           [ [[0;0;0]; [1;0;0]; [0;1;0]; [0;0;1]];
                             [[0;0;0]; [1;0;0]; [0;1;0]; [1;1;0]; [0;0;1]] ]
  = Ok [ mkRow (mkMatrix 3 4 [[0;1;0;1]; [0;1;1;0]; [1;0;0;0]]) 2%nat 2 ].
Proof. reflexivity. Qed.

Example table_on_one_neuron :
  make_table_toric_degrees toy_ToricIdeal (fun I => I) (fun d => d)
                           (fun I => length I) [ [[0]; [1]] ]
  = Err IndexError.
Proof. reflexivity. Qed.

Example empty_code_in_table :
  make_table_toric_degrees toy_ToricIdeal (fun I => I) (fun d => d)
                           (fun I => length I) [ [[0]; [1]]; [] ]
  = Err IndexError.
Proof. reflexivity. Qed.

(** ** Loops that only append *)

Lemma bind_Ok {A B : Type} (a : A) (k : A -> result B) :
  bind (Ok a) k = k a.
Proof. reflexivity. Qed.

Lemma fold_left_append {A B : Type} (f : A -> B) (l : list A) (acc : list B) :
  fold_left (fun acc x => Py.append acc (f x)) l acc = acc ++ map f l.
Proof.
  revert acc; induction l as [|x l IH]; intros acc; simpl.
  - now rewrite app_nil_r.
  - rewrite IH. unfold Py.append. now rewrite <- app_assoc.
Qed.

Lemma inflate_of_spec (code : Code) : inflate_of code = Spec.inflate code.
Proof.
  unfold inflate_of, Spec.inflate.
  now rewrite (fold_left_append (fun c => Py.append c 0)).
Qed.

Lemma zero_piercings_loop_spec (code inflate : Code) (acc : list Code) :
  zero_piercings_loop code inflate acc
  = acc ++ map (fun d => inflate ++ [d ++ [1]]) code.
Proof.
  unfold zero_piercings_loop.
  now rewrite (fold_left_append (fun d => Py.append inflate (Py.append d 1))).
Qed.

Lemma pierce_pairs_spec (inflate : Code) (pairs : list (Codeword * Codeword))
      (acc : list Code) :
  pierce_pairs inflate pairs acc
  = acc ++ map (fun p => inflate ++ [snd p ++ [1]; fst p ++ [1]]) pairs.
Proof.
  unfold pierce_pairs.
  now rewrite (fold_left_append
                 (fun p => inflate ++ [Py.append (snd p) 1; Py.append (fst p) 1])).
Qed.

(** ** Indexing inside the bounds *)

Lemma position_in_bounds (len k : nat) :
  (k < len)%nat -> Py.position len (Z.of_nat k) = Some k.
Proof.
  intros Hk. unfold Py.position.
  replace (0 <=? Z.of_nat k) with true by (symmetry; apply Z.leb_le; lia).
  replace (Z.of_nat k <? Z.of_nat len) with true by (symmetry; apply Z.ltb_lt; lia).
  simpl. now rewrite Nat2Z.id.
Qed.

Lemma getitem_in_bounds {A : Type} (l : list A) (k : nat) (d : A) :
  (k < length l)%nat -> Py.getitem l (Z.of_nat k) = Ok (nth k l d).
Proof.
  intros Hk. unfold Py.getitem. rewrite position_in_bounds by assumption.
  destruct (nth_error l k) as [x|] eqn:E.
  - now rewrite (nth_error_nth l k d E).
  - apply nth_error_None in E. lia.
Qed.

Lemma setitem_in_bounds {A : Type} (l : list A) (k : nat) (v : A) :
  (k < length l)%nat -> Py.setitem l (Z.of_nat k) v = Ok (Py.update l k v).
Proof.
  intros Hk. unfold Py.setitem. now rewrite position_in_bounds.
Qed.

Lemma range_from_zero (k : nat) :
  Py.range 0 (Z.of_nat k) = map Z.of_nat (seq 0 k).
Proof.
  unfold Py.range. rewrite Z.sub_0_r, Nat2Z.id. reflexivity.
Qed.

(** ** The loops of the enumerator on codewords of one length *)

Lemma chi_loop (i : nat) (code : Code) (acc : list Codeword) :
  Forall (fun c => (i < length c)%nat) code ->
  for_in code
         (fun codeword chi =>
            x <- Py.getitem codeword (Z.of_nat i) ;;
            Ok (if x =? 1 then Py.append chi codeword else chi))
         acc
  = Ok (acc ++ Spec.chi code i).
Proof.
  intros H; revert acc; induction H as [|c code Hc _ IH]; intros acc; simpl.
  - now rewrite app_nil_r.
  - rewrite (getitem_in_bounds c 0 Hc). simpl. rewrite IH.
    destruct (nth i c 0 =? 1); simpl; [|reflexivity].
    unfold Py.append. now rewrite <- app_assoc.
Qed.

Lemma pairs_loop (i : nat) (code : Code) (chi : list Codeword)
      (acc : list (Codeword * Codeword)) :
  Forall (fun c => (i < length c)%nat) chi ->
  for_in chi
         (fun codeword pairs =>
            partner2 <- Py.setitem codeword (Z.of_nat i) 0 ;;
            Ok (if Py.contains code partner2
                then Py.append pairs (codeword, partner2)
                else pairs))
         acc
  = Ok (acc ++ filter (fun p => Py.contains code (snd p))
                      (map (fun c => (c, Py.update c i 0)) chi)).
Proof.
  intros H; revert acc; induction H as [|c chi Hc _ IH]; intros acc; simpl.
  - now rewrite app_nil_r.
  - rewrite (setitem_in_bounds c 0 Hc). simpl. rewrite IH.
    destruct (Py.contains code (Py.update c i 0)); simpl; [|reflexivity].
    unfold Py.append. now rewrite <- app_assoc.
Qed.

Lemma chi_of_spec (i : nat) (code : Code) :
  Forall (fun c => (i < length c)%nat) code ->
  chi_of code (Z.of_nat i) = Ok (Spec.chi code i).
Proof. intros H. unfold chi_of. now rewrite chi_loop. Qed.

Lemma pairs_of_spec (i : nat) (code : Code) :
  Forall (fun c => (i < length c)%nat) code ->
  pairs_of code (Spec.chi code i) (Z.of_nat i) = Ok (Spec.pairs code i).
Proof.
  intros H. unfold pairs_of. rewrite pairs_loop; [reflexivity|].
  unfold Spec.chi. rewrite Forall_forall in *. intros c Hc.
  apply filter_In in Hc. now apply H.
Qed.

Lemma one_piercings_over (k : nat) (code inflate : Code) (idxs : list nat)
      (acc : list Code) :
  codewords_have_length k code ->
  Forall (fun i => (i < k)%nat) idxs ->
  for_in (map Z.of_nat idxs)
         (fun i one_piercings =>
            chi <- chi_of code i ;;
            pairs <- pairs_of code chi i ;;
            Ok (pierce_pairs inflate pairs one_piercings))
         acc
  = Ok (acc ++ flat_map
                 (fun i => map (fun p => inflate ++ [snd p ++ [1]; fst p ++ [1]])
                               (Spec.pairs code i))
                 idxs).
Proof.
  intros Hlen His; revert acc; induction His as [|i idxs Hi _ IH]; intros acc; simpl.
  - now rewrite app_nil_r.
  - assert (Hb : Forall (fun c => (i < length c)%nat) code).
    { eapply Forall_impl; [|exact Hlen]. simpl. intros c Hc. lia. }
    rewrite (chi_of_spec Hb). simpl. rewrite (pairs_of_spec Hb). simpl.
    rewrite IH, pierce_pairs_spec. now rewrite <- app_assoc.
Qed.

Lemma one_piercings_loop_spec (k : nat) (code : Code) (acc : list Code) :
  codewords_have_length k code ->
  one_piercings_loop (Z.of_nat k + 1) code (inflate_of code) acc
  = Ok (acc ++ Spec.one_piercings k code).
Proof.
  intros Hlen. unfold one_piercings_loop.
  replace (Z.of_nat k + 1 - 1) with (Z.of_nat k) by lia.
  rewrite range_from_zero, (one_piercings_over (inflate_of code) acc Hlen).
  - now rewrite inflate_of_spec.
  - apply Forall_forall. intros i Hi. apply in_seq in Hi. lia.
Qed.

Lemma pierce_loop (k : nat) (smaller_codes : list Code)
      (acc : list Code * list Code) :
  Forall (codewords_have_length k) smaller_codes ->
  for_in smaller_codes (pierce_code (Z.of_nat k + 1)) acc
  = Ok (fst acc ++ flat_map Spec.zero_piercings smaller_codes,
        snd acc ++ flat_map (Spec.one_piercings k) smaller_codes).
Proof.
  intros H; revert acc; induction H as [|C smaller HC _ IH]; intros [zp op]; simpl.
  - now rewrite !app_nil_r.
  - unfold pierce_code at 1. simpl.
    rewrite (one_piercings_loop_spec op HC). simpl.
    rewrite IH. simpl.
    rewrite zero_piercings_loop_spec, inflate_of_spec.
    now rewrite <- !app_assoc.
Qed.

(** The [else] branch computes the piercings the specification lists, for
    smaller codes whose codewords all have length [k]. *)
Lemma pierce_all_spec (k : nat) (smaller_codes : list Code) :
  Forall (codewords_have_length k) smaller_codes ->
  pierce_all (Z.of_nat k + 1) smaller_codes = Ok (Spec.pierce k smaller_codes).
Proof.
  intros H. unfold pierce_all. now rewrite (pierce_loop ([], []) H).
Qed.

(** ** Lengths of the codewords *)

Lemma inflate_lengths (k : nat) (C : Code) :
  codewords_have_length k C -> codewords_have_length (S k) (Spec.inflate C).
Proof.
  unfold codewords_have_length, Spec.inflate. intros H.
  apply Forall_map. eapply Forall_impl; [|exact H].
  simpl. intros c Hc. rewrite length_app. simpl. lia.
Qed.

Lemma update_length {A : Type} (l : list A) (i : nat) (v : A) :
  length (Py.update l i v) = length l.
Proof.
  revert i; induction l as [|x l IH]; intros [|i]; simpl; auto.
Qed.

Lemma pairs_members (C : Code) (i : nat) (p : Codeword * Codeword) :
  In p (Spec.pairs C i) ->
  In (fst p) C /\ nth i (fst p) 0 = 1 /\ snd p = Py.update (fst p) i 0.
Proof.
  unfold Spec.pairs, Spec.chi. intros H.
  apply filter_In in H. destruct H as [H _].
  apply in_map_iff in H. destruct H as [c [<- Hc]].
  apply filter_In in Hc. destruct Hc as [Hc H1].
  apply Z.eqb_eq in H1. simpl. auto.
Qed.

Lemma zero_piercings_lengths (k : nat) (C : Code) :
  codewords_have_length k C ->
  Forall (codewords_have_length (S k)) (Spec.zero_piercings C).
Proof.
  intros H. unfold Spec.zero_piercings. apply Forall_map, Forall_forall.
  intros d Hd. apply Forall_app. split.
  - now apply inflate_lengths.
  - constructor; [|constructor]. rewrite length_app. simpl.
    unfold codewords_have_length in H. rewrite Forall_forall in H.
    rewrite (H d Hd). lia.
Qed.

Lemma one_piercings_lengths (k j : nat) (C : Code) :
  codewords_have_length k C ->
  Forall (codewords_have_length (S k)) (Spec.one_piercings j C).
Proof.
  intros H. unfold Spec.one_piercings. apply Forall_flat_map, Forall_forall.
  intros i _. apply Forall_map, Forall_forall. intros p Hp.
  apply pairs_members in Hp. destruct Hp as [Hin [_ Hsnd]].
  assert (Hl : length (fst p) = k).
  { unfold codewords_have_length in H. rewrite Forall_forall in H. auto. }
  apply Forall_app. split.
  - now apply inflate_lengths.
  - constructor; [|constructor; [|constructor]]; rewrite length_app.
    + rewrite Hsnd, update_length, Hl. simpl. lia.
    + rewrite Hl. simpl. lia.
Qed.

Lemma pierce_lengths (k j : nat) (smaller_codes : list Code) :
  Forall (codewords_have_length k) smaller_codes ->
  Forall (codewords_have_length (S k)) (Spec.pierce j smaller_codes).
Proof.
  intros H. unfold Spec.pierce. apply Forall_app. split.
  - apply Forall_flat_map. eapply Forall_impl; [|exact H].
    intros C. apply zero_piercings_lengths.
  - apply Forall_flat_map. eapply Forall_impl; [|exact H].
    intros C. apply one_piercings_lengths.
Qed.

Lemma pierced_codes_lengths (k : nat) :
  Forall (codewords_have_length (S k)) (Spec.pierced_codes k).
Proof.
  induction k as [|k IH]; simpl.
  - repeat constructor.
  - now apply pierce_lengths.
Qed.

(** ** Enough fuel *)

(** With a call stack of depth at least [n], the notebook's function
    returns the codes obtained by piercing [n - 1] times. *)
Lemma make_induct_one_pierced_enough (fuel : nat) (n : Z) :
  1 <= n -> (Z.to_nat n <= fuel)%nat ->
  make_induct_one_pierced fuel n = Ok (Spec.pierced_codes (Z.to_nat (n - 1))).
Proof.
  revert n; induction fuel as [|fuel IH]; intros n Hn Hf; [lia|].
  simpl. destruct (n =? 1) eqn:E.
  - apply Z.eqb_eq in E. subst n. reflexivity.
  - apply Z.eqb_neq in E. rewrite IH by lia. simpl.
    replace (Z.to_nat (n - 1)) with (S (Z.to_nat (n - 1 - 1))) by lia.
    set (k := Z.to_nat (n - 1 - 1)).
    replace n with (Z.of_nat (S k) + 1) by lia.
    rewrite (pierce_all_spec (pierced_codes_lengths k)). reflexivity.
Qed.

(** Below 1 the recursion never reaches its base case. *)
Lemma make_induct_one_pierced_below (fuel : nat) (n : Z) :
  n < 1 -> make_induct_one_pierced fuel n = Err RecursionError.
Proof.
  revert n; induction fuel as [|fuel IH]; intros n Hn; simpl; [reflexivity|].
  replace (n =? 1) with false by (symmetry; apply Z.eqb_neq; lia).
  now rewrite IH by lia.
Qed.

(** ** Distinct codewords *)

Lemma inflate_NoDup (C : Code) : NoDup C -> NoDup (Spec.inflate C).
Proof.
  unfold Spec.inflate. induction 1 as [|c C Hc _ IH]; simpl; constructor; auto.
  intros Hin. apply in_map_iff in Hin. destruct Hin as [c' [E Hc']].
  apply app_inj_tail in E. destruct E as [-> _]. contradiction.
Qed.

Lemma one_not_in_inflate (C : Code) (d : Codeword) :
  ~ In (d ++ [1]) (Spec.inflate C).
Proof.
  unfold Spec.inflate. intros Hin. apply in_map_iff in Hin.
  destruct Hin as [c [E _]]. apply app_inj_tail in E. destruct E as [_ E].
  discriminate.
Qed.

Lemma nth_update_zero (l : Codeword) (i : nat) : nth i (Py.update l i 0) 0 = 0.
Proof.
  revert i; induction l as [|x l IH]; intros [|i]; simpl; auto.
Qed.

Lemma zero_piercings_NoDup (C : Code) :
  NoDup C -> Forall (@NoDup (list Z)) (Spec.zero_piercings C).
Proof.
  intros H. unfold Spec.zero_piercings. apply Forall_map, Forall_forall.
  intros d _. apply NoDup_app.
  - now apply inflate_NoDup.
  - constructor; [intros []|constructor].
  - intros c Hc [<-|[]]. revert Hc. apply one_not_in_inflate.
Qed.

Lemma one_piercings_NoDup (k : nat) (C : Code) :
  NoDup C -> Forall (@NoDup (list Z)) (Spec.one_piercings k C).
Proof.
  intros H. unfold Spec.one_piercings. apply Forall_flat_map, Forall_forall.
  intros i _. apply Forall_map, Forall_forall. intros p Hp.
  apply pairs_members in Hp. destruct Hp as [_ [H1 Hsnd]].
  apply NoDup_app.
  - now apply inflate_NoDup.
  - constructor; [|constructor; [intros []|constructor]].
    intros [E|[]]. apply app_inj_tail in E. destruct E as [E _].
    rewrite E, Hsnd, nth_update_zero in H1. discriminate.
  - intros c Hc [<-|[<-|[]]]; revert Hc; apply one_not_in_inflate.
Qed.

Lemma pierced_codes_NoDup (k : nat) :
  Forall (@NoDup (list Z)) (Spec.pierced_codes k).
Proof.
  induction k as [|k IH]; simpl.
  - constructor; [|constructor].
    constructor; [intros [E|[]]; discriminate|].
    constructor; [intros []|constructor].
  - unfold Spec.pierce. apply Forall_app. split; apply Forall_flat_map;
      (eapply Forall_impl; [|exact IH]); intros C.
    + apply zero_piercings_NoDup.
    + apply one_piercings_NoDup.
Qed.

(** ** The reference codeword *)

Lemma inflate_starts_with_zero (k : nat) (C tail : Code) :
  starts_with_zero k C -> starts_with_zero (S k) (Spec.inflate C ++ tail).
Proof.
  intros [rest ->]. exists (Spec.inflate rest ++ tail).
  unfold Spec.zero_codeword. simpl. now rewrite <- repeat_cons.
Qed.

Lemma pierce_starts_with_zero (k j : nat) (smaller_codes : list Code) :
  Forall (starts_with_zero k) smaller_codes ->
  Forall (starts_with_zero (S k)) (Spec.pierce j smaller_codes).
Proof.
  intros H. unfold Spec.pierce. apply Forall_app.
  split; apply Forall_flat_map; (eapply Forall_impl; [|exact H]); intros C HC.
  - unfold Spec.zero_piercings. apply Forall_map, Forall_forall. intros d _.
    now apply inflate_starts_with_zero.
  - unfold Spec.one_piercings. apply Forall_flat_map, Forall_forall.
    intros i _. apply Forall_map, Forall_forall. intros p _.
    now apply inflate_starts_with_zero.
Qed.

Lemma pierced_codes_start_with_zero (k : nat) :
  Forall (starts_with_zero (S k)) (Spec.pierced_codes k).
Proof.
  induction k as [|k IH]; simpl.
  - constructor; [|constructor]. now exists [[1]].
  - now apply pierce_starts_with_zero.
Qed.

(** ** [reverse_code] *)

Lemma reverse_loop {A : Type} (code : list A) (d : A) (m : nat) (len : Z)
      (idxs : list nat) (acc : list A) :
  length code = S m ->
  len = Z.of_nat (S m) ->
  Forall (fun i => (i <= m)%nat) idxs ->
  for_in (map Z.of_nat idxs)
         (fun i results =>
            x <- Py.getitem code (len - 1 - i) ;;
            Ok (Py.append results x))
         acc
  = Ok (acc ++ map (fun i => nth (m - i) code d) idxs).
Proof.
  intros Hlen Hm H; revert acc; induction H as [|i idxs Hi _ IH]; intros acc; simpl.
  - now rewrite app_nil_r.
  - replace (len - 1 - Z.of_nat i) with (Z.of_nat (m - i)) by lia.
    rewrite (getitem_in_bounds code d) by lia. simpl.
    rewrite IH. unfold Py.append. now rewrite <- app_assoc.
Qed.

Lemma rest_reversed {A : Type} (first : A) (remaining : list A) :
  map (fun i => nth (length remaining - i) (first :: remaining) first)
      (seq 0 (length remaining))
  = rev remaining.
Proof.
  set (f := fun i => nth (length remaining - i) (first :: remaining) first).
  apply (nth_ext _ _ (f O) first).
  - now rewrite length_map, length_seq, length_rev.
  - rewrite length_map, length_seq. intros j Hj.
    rewrite map_nth, seq_nth by assumption.
    rewrite rev_nth by assumption. unfold f. simpl.
    replace (length remaining - j)%nat with (S (length remaining - S j)) by lia.
    reflexivity.
Qed.

Lemma reverse_code_cons {A : Type} (first : A) (remaining : list A) :
  reverse_code (first :: remaining) = Ok (first :: rev remaining).
Proof.
  unfold reverse_code.
  change (Py.getitem (first :: remaining) 0)
    with (Py.getitem (first :: remaining) (Z.of_nat 0)).
  rewrite (getitem_in_bounds (first :: remaining) (k := 0) first) by (simpl; lia).
  rewrite bind_Ok. cbn [nth].
  set (len := Z.of_nat (length (first :: remaining))).
  assert (Hlen : len = Z.of_nat (S (length remaining))) by reflexivity.
  replace (Py.range 0 (len - 1)) with (map Z.of_nat (seq 0 (length remaining)))
    by (rewrite <- range_from_zero; f_equal; lia).
  rewrite (@reverse_loop _ (first :: remaining) first (length remaining)).
  - rewrite (rest_reversed first remaining). reflexivity.
  - reflexivity.
  - exact Hlen.
  - apply Forall_forall. intros i Hi. apply in_seq in Hi. lia.
Qed.

(** ** The enumerator: base case and example *)

(** C1, as the specification words it: two codes of one codeword each.  No
    depth of the call stack makes [make_induct_one_pierced 1] return
    [[{[0]}, {[1]}]]. *)
Lemma base_case_is_not_two_singleton_codes :
  ~ exists fuel, make_induct_one_pierced fuel 1 = Ok [[[0]]; [[1]]].
Proof.
  intros [[|fuel] H]; simpl in H; discriminate.
Qed.

(** C1, amended: on [n = 1] the enumerator returns exactly one code, whose
    two codewords are [[0]] and [[1]], in that order. *)
Theorem base_case_is_one_code_of_two_codewords (fuel : nat) :
  make_induct_one_pierced (S fuel) 1 = Ok [[[0]; [1]]].
Proof. reflexivity. Qed.

(** C2: on [n = 3] the enumerator returns a sequence of exactly 18 codes,
    whatever the depth of the call stack beyond the three calls it needs. *)
Theorem three_neurons_give_18_codes (fuel : nat) :
  exists codes,
    make_induct_one_pierced (3 + fuel) 3 = Ok codes /\ length codes = 18%nat.
Proof.
  exists (Spec.pierced_codes 2). split.
  - now rewrite make_induct_one_pierced_enough by lia.
  - reflexivity.
Qed.

(** ** [reverse_code]: first element fixed, remainder reversed *)

(** C5: on every non-empty sequence [reverse_code] returns the first element
    followed by the remaining elements in reverse order; on [[a,b,c,d]] it
    returns [[a,d,c,b]]. *)
Theorem reverse_code_first_fixed_rest_reversed {A : Type} (code : list A) :
  code <> [] ->
  reverse_code code = Ok (Spec.reverse_code code)
  /\ (forall a b c d : A, reverse_code [a; b; c; d] = Ok [a; d; c; b]).
Proof.
  intros Hne. split.
  - destruct code as [|first remaining]; [contradiction|].
    apply reverse_code_cons.
  - intros a b c d. apply (reverse_code_cons a [b; c; d]).
Qed.

Lemma reverse_code_first_fixed_rest_reversed_witness :
  reverse_code [1; 2; 3] = Ok (Spec.reverse_code [1; 2; 3])
  /\ (forall a b c d : Z, reverse_code [a; b; c; d] = Ok [a; d; c; b]).
Proof.
  apply (@reverse_code_first_fixed_rest_reversed Z [1; 2; 3]). discriminate.
Defined.

(** ** Invariants of the enumerated codes *)

(** C7: for every positive [n], and a call stack deep enough for the [n]
    nested calls, the enumerator returns, and every codeword of every
    returned code has length exactly [n]. *)
Theorem codewords_have_n_neurons (n : Z) (fuel : nat) :
  1 <= n -> (Z.to_nat n <= fuel)%nat ->
  exists codes,
    make_induct_one_pierced fuel n = Ok codes
    /\ forall code codeword,
        In code codes -> In codeword code -> Z.of_nat (length codeword) = n.
Proof.
  intros Hn Hf. exists (Spec.pierced_codes (Z.to_nat (n - 1))). split.
  - now apply make_induct_one_pierced_enough.
  - intros code codeword Hcode Hword.
    pose proof (pierced_codes_lengths (Z.to_nat (n - 1))) as H.
    rewrite Forall_forall in H. specialize (H code Hcode).
    unfold codewords_have_length in H. rewrite Forall_forall in H.
    rewrite (H codeword Hword). lia.
Qed.

Lemma codewords_have_n_neurons_witness :
  exists codes,
    make_induct_one_pierced 4 4 = Ok codes
    /\ forall code codeword,
        In code codes -> In codeword code -> Z.of_nat (length codeword) = 4.
Proof.
  apply (@codewords_have_n_neurons 4 4); [lia | simpl; lia].
Defined.

(** C9: for every positive [n], the codewords of each returned code are
    pairwise distinct. *)
Theorem codewords_of_a_code_are_distinct (n : Z) (fuel : nat) :
  1 <= n -> (Z.to_nat n <= fuel)%nat ->
  exists codes,
    make_induct_one_pierced fuel n = Ok codes
    /\ forall code, In code codes -> NoDup code.
Proof.
  intros Hn Hf. exists (Spec.pierced_codes (Z.to_nat (n - 1))). split.
  - now apply make_induct_one_pierced_enough.
  - apply Forall_forall, pierced_codes_NoDup.
Qed.

Lemma codewords_of_a_code_are_distinct_witness :
  exists codes,
    make_induct_one_pierced 3 3 = Ok codes
    /\ forall code, In code codes -> NoDup code.
Proof.
  apply (@codewords_of_a_code_are_distinct 3 3); [lia | simpl; lia].
Defined.

(** C10: for every positive [n], every returned code starts with the
    all-zero codeword of length [n], and [reverse_code] keeps it in front:
    the element that [make_table_toric_degrees] drops with [[1:]] is that
    all-zero codeword, and what remains are the other codewords reversed. *)
Theorem first_codeword_is_all_zero (n : Z) (fuel : nat) :
  1 <= n -> (Z.to_nat n <= fuel)%nat ->
  exists codes,
    make_induct_one_pierced fuel n = Ok codes
    /\ forall code,
        In code codes ->
        exists rest,
          code = Spec.zero_codeword (Z.to_nat n) :: rest
          /\ reverse_code code = Ok (Spec.zero_codeword (Z.to_nat n) :: rev rest).
Proof.
  intros Hn Hf. exists (Spec.pierced_codes (Z.to_nat (n - 1))). split.
  - now apply make_induct_one_pierced_enough.
  - intros code Hcode.
    pose proof (pierced_codes_start_with_zero (Z.to_nat (n - 1))) as H.
    rewrite Forall_forall in H. destruct (H code Hcode) as [rest ->].
    replace (S (Z.to_nat (n - 1))) with (Z.to_nat n) by lia.
    exists rest. split; [reflexivity|]. apply reverse_code_cons.
Qed.

Lemma first_codeword_is_all_zero_witness :
  exists codes,
    make_induct_one_pierced 2 2 = Ok codes
    /\ forall code,
        In code codes ->
        exists rest,
          code = Spec.zero_codeword (Z.to_nat 2) :: rest
          /\ reverse_code code = Ok (Spec.zero_codeword (Z.to_nat 2) :: rev rest).
Proof.
  apply (@first_codeword_is_all_zero 2 2); [lia | simpl; lia].
Defined.

(** ** The zero-piercings *)

(** C8: for [n > 1], the result of the call on [n] starts with the
    zero-piercings of the codes [C] returned by the recursive call, code by
    code: each [C] contributes [|C|] of them, the one at position [j] being
    [inflate(C)] followed by the codeword [j] of [C] with a trailing 1.  The
    codes that follow are the one-piercings, each two codewords longer than
    the code it comes from. *)
Theorem zero_piercings_one_per_codeword (n : Z) (fuel : nat) :
  1 < n -> (Z.to_nat n <= S fuel)%nat ->
  exists smaller_codes one_piercings,
    make_induct_one_pierced fuel (n - 1) = Ok smaller_codes
    /\ make_induct_one_pierced (S fuel) n
       = Ok (flat_map Spec.zero_piercings smaller_codes ++ one_piercings)
    /\ (forall C,
          In C smaller_codes ->
          length (Spec.zero_piercings C) = length C
          /\ forall j d,
              nth_error C j = Some d ->
              nth_error (Spec.zero_piercings C) j
              = Some (map (fun c => c ++ [0]) C ++ [d ++ [1]]))
    /\ (forall code,
          In code one_piercings ->
          exists C, In C smaller_codes /\ length code = (length C + 2)%nat).
Proof.
  intros Hn Hf.
  set (k := Z.to_nat (n - 1 - 1)).
  exists (Spec.pierced_codes k),
         (flat_map (Spec.one_piercings (S k)) (Spec.pierced_codes k)).
  assert (Hsmall : make_induct_one_pierced fuel (n - 1) = Ok (Spec.pierced_codes k)).
  { now rewrite make_induct_one_pierced_enough by lia. }
  split; [exact Hsmall|]. split; [|split].
  - simpl. replace (n =? 1) with false by (symmetry; apply Z.eqb_neq; lia).
    rewrite Hsmall, bind_Ok.
    replace n with (Z.of_nat (S k) + 1) by lia.
    now rewrite (pierce_all_spec (pierced_codes_lengths k)).
  - intros C _. unfold Spec.zero_piercings. split.
    + apply length_map.
    + intros j d Hd. rewrite nth_error_map, Hd. reflexivity.
  - intros code Hcode. apply in_flat_map in Hcode.
    destruct Hcode as [C [HC Hcode]]. exists C. split; [exact HC|].
    unfold Spec.one_piercings in Hcode. apply in_flat_map in Hcode.
    destruct Hcode as [i [_ Hcode]]. apply in_map_iff in Hcode.
    destruct Hcode as [p [<- _]].
    rewrite length_app. unfold Spec.inflate. rewrite length_map. reflexivity.
Qed.

Lemma zero_piercings_one_per_codeword_witness :
  exists smaller_codes one_piercings,
    make_induct_one_pierced 2 (3 - 1) = Ok smaller_codes
    /\ make_induct_one_pierced 3 3
       = Ok (flat_map Spec.zero_piercings smaller_codes ++ one_piercings)
    /\ (forall C,
          In C smaller_codes ->
          length (Spec.zero_piercings C) = length C
          /\ forall j d,
              nth_error C j = Some d ->
              nth_error (Spec.zero_piercings C) j
              = Some (map (fun c => c ++ [0]) C ++ [d ++ [1]]))
    /\ (forall code,
          In code one_piercings ->
          exists C, In C smaller_codes /\ length code = (length C + 2)%nat).
Proof.
  apply (@zero_piercings_one_per_codeword 3 2); [lia | simpl; lia].
Defined.

(** ** Strings *)

Lemma string_app_assoc (s t u : string) :
  ((s ++ t) ++ u = s ++ (t ++ u))%string.
Proof. induction s as [|a s IH]; simpl; [reflexivity | now rewrite IH]. Qed.

Lemma string_app_nil_r (s : string) : (s ++ "" = s)%string.
Proof. induction s as [|a s IH]; simpl; [reflexivity | now rewrite IH]. Qed.

Lemma string_app_eq_nil (s t : string) :
  (s ++ t)%string = ""%string -> t = ""%string.
Proof. destruct s; simpl; [auto | discriminate]. Qed.

Lemma drop_last_app (s t : string) :
  t <> ""%string -> Py.drop_last (s ++ t) = (s ++ Py.drop_last t)%string.
Proof.
  intros Ht. induction s as [|a s IH]; [reflexivity|].
  simpl. destruct (s ++ t)%string eqn:E.
  - apply string_app_eq_nil in E. contradiction.
  - now rewrite IH.
Qed.

Lemma concat_empty_separator (l : list string) :
  String.concat "" l = fold_right String.append ""%string l.
Proof.
  induction l as [|x [|y l] IH]; simpl in *.
  - reflexivity.
  - now rewrite string_app_nil_r.
  - now rewrite IH.
Qed.

(** ** Variable names *)

Lemma name_loop (col : list Z) (name : string) :
  fold_left (fun name position => (name ++ Py.str position)%string) col name
  = (name ++ fold_right String.append "" (map Py.str col))%string.
Proof.
  revert name; induction col as [|b col IH]; intros name; simpl.
  - now rewrite string_app_nil_r.
  - now rewrite IH, string_app_assoc.
Qed.

Lemma names_loop (cols : list (list Z)) (names : string) :
  fold_left (fun names col => (names ++ variable_name col ++ ",")%string)
            cols names
  = (names ++ fold_right String.append ""
                         (map (fun col => variable_name col ++ ",") cols))%string.
Proof.
  revert names; induction cols as [|col cols IH]; intros names; simpl.
  - now rewrite string_app_nil_r.
  - now rewrite IH, !string_app_assoc.
Qed.

Lemma drop_last_of_terminated (names : list string) :
  Py.drop_last (fold_right String.append ""
                           (map (fun name => name ++ ",") names))%string
  = String.concat "," names.
Proof.
  induction names as [|x [|y names] IH].
  - reflexivity.
  - cbn [map fold_right String.concat].
    rewrite string_app_nil_r, drop_last_app by discriminate.
    apply string_app_nil_r.
  - change (Py.drop_last
              ((x ++ ",") ++ fold_right String.append ""
                   (map (fun name => name ++ ",") (y :: names)))
            = x ++ "," ++ String.concat "," (y :: names))%string.
    rewrite string_app_assoc, drop_last_app.
    + rewrite drop_last_app.
      * now rewrite IH.
      * simpl. destruct y; simpl; discriminate.
    + simpl. discriminate.
Qed.

(** The notebook's loop is the comma-separated join of the names of the
    columns, whatever the entries of the matrix are. *)
Lemma variable_names_are_joined (mat : Matrix) :
  make_variable_names_from_matrix mat
  = String.concat "," (map variable_name (columns mat)).
Proof.
  unfold make_variable_names_from_matrix. rewrite names_loop. simpl.
  rewrite <- drop_last_of_terminated, map_map. reflexivity.
Qed.

Lemma str_of_bit (b : Z) : is_bit b -> Py.str b = Spec.digit b.
Proof. intros [-> | ->]; reflexivity. Qed.

Lemma variable_name_of_bits (col : list Z) :
  Forall is_bit col -> variable_name col = Spec.name_of_column col.
Proof.
  intros H. unfold variable_name, Spec.name_of_column.
  rewrite name_loop, concat_empty_separator. f_equal.
  induction H as [|b col Hb _ IH]; simpl; [reflexivity|].
  now rewrite IH, (str_of_bit Hb).
Qed.

(** C6: on a matrix of bits with at least one column, the names are ['y']
    followed by the digits of each column, in column order, joined by commas
    without a trailing comma; on the columns [[1,0]] and [[0,1]] the result
    is ["y10,y01"]. *)
Theorem variable_names_of_columns (mat : Matrix) :
  columns mat <> [] ->
  Forall (Forall is_bit) (columns mat) ->
  make_variable_names_from_matrix mat = Spec.make_variable_names mat
  /\ make_variable_names_from_matrix (mkMatrix 2 2 [[1; 0]; [0; 1]])
     = "y10,y01"%string.
Proof.
  intros _ Hbits. split; [|reflexivity].
  rewrite variable_names_are_joined. unfold Spec.make_variable_names. f_equal.
  apply map_ext_in. intros col Hcol. apply variable_name_of_bits.
  rewrite Forall_forall in Hbits. now apply Hbits.
Qed.

Lemma variable_names_of_columns_witness :
  make_variable_names_from_matrix (mkMatrix 3 2 [[0; 1]; [1; 1]; [1; 0]])
  = Spec.make_variable_names (mkMatrix 3 2 [[0; 1]; [1; 1]; [1; 0]])
  /\ make_variable_names_from_matrix (mkMatrix 2 2 [[1; 0]; [0; 1]])
     = "y10,y01"%string.
Proof.
  apply (@variable_names_of_columns (mkMatrix 3 2 [[0; 1]; [1; 1]; [1; 0]])).
  - simpl. discriminate.
  - simpl. repeat (apply Forall_cons || apply Forall_nil);
      (left; reflexivity) || (right; reflexivity).
Defined.

(** ** Codes with fewer than two codewords *)

(** C3, as the specification words it: building the matrix and the names
    of a code of one codeword is not an error.  It gives the 0 x 0 matrix and
    the empty string of names. *)
Lemma one_codeword_builds_without_error :
  (length [[0; 0]] < 2)%nat
  /\ matrix_and_names [[0; 0]] = Ok (mkMatrix 0 0 [], ""%string)
  /\ ~ exists e, matrix_and_names [[0; 0]] = Err e.
Proof.
  split; [simpl; lia|]. split; [reflexivity|].
  intros [e H]. discriminate.
Qed.

(** C3, amended: the construction validates nothing.  On a code of exactly
    one codeword it succeeds with the 0 x 0 matrix and the empty string of
    names; on the empty code it fails with the [IndexError] of [code[0]] in
    [reverse_code]. *)
Theorem fewer_than_two_codewords (code : Code) :
  (length code < 2)%nat ->
  matrix_and_names code
  = match code with
    | [] => Err IndexError
    | _ :: _ => Ok (mkMatrix 0 0 [], ""%string)
    end.
Proof.
  intros Hlen. destruct code as [|c [|c' code]]; simpl in Hlen.
  - reflexivity.
  - unfold matrix_and_names, matrix_of_code.
    rewrite reverse_code_cons. reflexivity.
  - lia.
Qed.

Lemma fewer_than_two_codewords_witness :
  matrix_and_names [[0; 1; 1]]
  = match [[0; 1; 1]] with
    | [] => Err IndexError
    | _ :: _ => Ok (mkMatrix 0 0 [], ""%string)
    end.
Proof.
  apply (@fewer_than_two_codewords [[0; 1; 1]]). simpl. lia.
Defined.

(** ** The table *)

Lemma list_eqb_true (u v : list Z) : Py.list_eqb u v = true -> u = v.
Proof.
  revert v; induction u as [|x u IH]; intros [|y v]; simpl;
    try discriminate; [reflexivity|].
  intros H. apply andb_prop in H. destruct H as [Hx Hu].
  apply Z.eqb_eq in Hx. now rewrite Hx, (IH v Hu).
Qed.


Section TableLoop.

Variables ideal polynomial basis : Type.
Variable ToricIdeal : Matrix -> string -> result ideal.
Variable gens : ideal -> list polynomial.
Variable degree : polynomial -> Z.
Variable groebner_basis : ideal -> basis.

Lemma table_loop (code_list : list Code)
      (acc : list ideal * list (table_row basis)) :
  (a <- for_in code_list
               (table_step ToricIdeal gens degree groebner_basis) acc ;;
   Ok (snd a))
  = (rs <- Spec.records_of ToricIdeal gens degree groebner_basis code_list ;;
     Ok (snd acc ++ Spec.kept rs)).
Proof.
  revert acc; induction code_list as [|code rest IH]; intros acc.
  - simpl. now rewrite app_nil_r.
  - cbn [for_in Spec.records_of].
    unfold table_step at 1, Spec.compute_toric_record, degrees_of.
    destruct (matrix_of_code code) as [mat|e]; [|reflexivity].
    rewrite !bind_Ok.
    destruct (ToricIdeal mat (make_variable_names_from_matrix mat))
      as [toric_ideal|e]; [|reflexivity].
    rewrite !bind_Ok. cbv zeta.
    destruct (Py.list_eqb (map degree (gens toric_ideal)) [-1]);
      cbn [negb].
    + rewrite !bind_Ok, IH. cbn [snd].
      destruct (Spec.records_of _ _ _ _ rest); reflexivity.
    + destruct (Py.max (map degree (gens toric_ideal))) as [m|e];
        [|reflexivity].
      rewrite !bind_Ok, IH. cbn [snd].
      destruct (Spec.records_of _ _ _ _ rest) as [rs|e]; [|reflexivity].
      rewrite !bind_Ok. cbn [Spec.kept]. unfold Py.append.
      now rewrite <- app_assoc.
Qed.

Lemma clean_rows_are_kept_records (code_list : list Code) :
  clean_rows ToricIdeal gens degree groebner_basis code_list
  = Spec.make_table ToricIdeal gens degree groebner_basis code_list.
Proof.
  unfold clean_rows, Spec.make_table. now rewrite table_loop.
Qed.

End TableLoop.




(** * Further properties of the notebook's functions *)

(** ** The only failure of the enumerator *)

Lemma make_induct_one_pierced_shallow (fuel : nat) (n : Z) :
  1 <= n -> (fuel < Z.to_nat n)%nat ->
  make_induct_one_pierced fuel n = Err RecursionError.
Proof.
  revert n; induction fuel as [|fuel IH]; intros n Hn Hf; simpl; [reflexivity|].
  replace (n =? 1) with false by (symmetry; apply Z.eqb_neq; lia).
  now rewrite IH by lia.
Qed.

(** [make_induct_one_pierced] returns exactly when [n] is at least 1 and
    the call stack allows [n] nested calls; otherwise the exception is
    [RecursionError], never an [IndexError] from [codeword[i]] or
    [partner2[i] = 0]. *)
Theorem enumerator_fails_only_by_recursion (fuel : nat) (n : Z) :
  ((exists codes, make_induct_one_pierced fuel n = Ok codes)
   <-> 1 <= n /\ (Z.to_nat n <= fuel)%nat)
  /\ (forall e, make_induct_one_pierced fuel n = Err e -> e = RecursionError).
Proof.
  destruct (Z_lt_le_dec n 1) as [Hlow|Hn].
  - rewrite make_induct_one_pierced_below by assumption. split.
    + split; [intros [codes H]; discriminate | lia].
    + intros e H. now injection H as <-.
  - destruct (le_lt_dec (Z.to_nat n) fuel) as [Hf|Hf].
    + rewrite make_induct_one_pierced_enough by assumption. split.
      * split; [auto | intros _; eauto].
      * intros e H. discriminate.
    + rewrite make_induct_one_pierced_shallow by assumption. split.
      * split; [intros [codes H]; discriminate | lia].
      * intros e H. now injection H as <-.
Qed.

(** ** Sizes and entries of the enumerated codes *)

Lemma pierce_Forall (P Q : list (list Z) -> Prop) (k : nat)
      (smaller_codes : list Code) :
  Forall P smaller_codes ->
  (forall C d, P C -> In d C -> Q (Spec.inflate C ++ [d ++ [1]])) ->
  (forall C i p,
      P C -> In p (Spec.pairs C i) ->
      Q (Spec.inflate C ++ [snd p ++ [1]; fst p ++ [1]])) ->
  Forall Q (Spec.pierce k smaller_codes).
Proof.
  intros H Hzero Hone. unfold Spec.pierce. apply Forall_app.
  split; apply Forall_flat_map; (eapply Forall_impl; [|exact H]); intros C HC.
  - unfold Spec.zero_piercings. apply Forall_map, Forall_forall. intros d Hd.
    now apply Hzero.
  - unfold Spec.one_piercings. apply Forall_flat_map, Forall_forall.
    intros i _. apply Forall_map, Forall_forall. intros p Hp.
    now apply (Hone C i p).
Qed.

Lemma inflate_length (C : Code) : length (Spec.inflate C) = length C.
Proof. apply length_map. Qed.

Lemma pierced_codes_sizes (k : nat) :
  Forall (fun C : list (list Z) =>
            (S k + 1 <= length C /\ length C <= 2 * S k)%nat)
         (Spec.pierced_codes k).
Proof.
  induction k as [|k IH]; simpl Spec.pierced_codes.
  - constructor; [simpl; lia | constructor].
  - eapply pierce_Forall; [exact IH | |].
    + intros C d HC _. cbv beta in HC.
      rewrite length_app, inflate_length. simpl length. lia.
    + intros C i p HC _. cbv beta in HC.
      rewrite length_app, inflate_length. simpl length. lia.
Qed.

Lemma update_bits (c : list Z) (i : nat) :
  Forall is_bit c -> Forall is_bit (Py.update c i 0).
Proof.
  intros H; revert i; induction H as [|b c Hb H IH]; intros [|i]; simpl;
    try constructor; auto. now left.
Qed.

Lemma inflate_bits (C tail : Code) :
  Forall (Forall is_bit) C -> Forall (Forall is_bit) tail ->
  Forall (Forall is_bit) (Spec.inflate C ++ tail).
Proof.
  intros HC Ht. apply Forall_app. split; [|exact Ht].
  unfold Spec.inflate. apply Forall_map. eapply Forall_impl; [|exact HC].
  intros c Hc. apply Forall_app. split; [exact Hc|].
  constructor; [now left | constructor].
Qed.

Lemma appended_one_bits (d : list Z) :
  Forall is_bit d -> Forall is_bit (d ++ [1]).
Proof.
  intros H. apply Forall_app. split; [exact H|].
  constructor; [now right | constructor].
Qed.

Lemma pierced_codes_bits (k : nat) :
  Forall (Forall (Forall is_bit)) (Spec.pierced_codes k).
Proof.
  induction k as [|k IH]; simpl Spec.pierced_codes.
  - unfold is_bit. repeat (apply Forall_cons || apply Forall_nil); auto.
  - eapply pierce_Forall; [exact IH | |].
    + intros C d HC Hd. apply inflate_bits; [exact HC|].
      constructor; [|constructor]. apply appended_one_bits.
      rewrite Forall_forall in HC. now apply HC.
    + intros C i p HC Hp. apply pairs_members in Hp.
      destruct Hp as [Hin [_ Hsnd]].
      assert (Hfst : Forall is_bit (fst p)).
      { rewrite Forall_forall in HC. now apply HC. }
      apply inflate_bits; [exact HC|].
      constructor; [|constructor; [|constructor]].
      * rewrite Hsnd. now apply appended_one_bits, update_bits.
      * now apply appended_one_bits.
Qed.

(** For every positive [n], a code returned for [n] has at least [n + 1]
    and at most [2 n] codewords: the base code has two, and every piercing
    adds one or two. *)
Theorem enumerated_code_sizes (n : Z) (fuel : nat) :
  1 <= n -> (Z.to_nat n <= fuel)%nat ->
  exists codes,
    make_induct_one_pierced fuel n = Ok codes
    /\ forall code,
        In code codes -> n + 1 <= Z.of_nat (length code) <= 2 * n.
Proof.
  intros Hn Hf. exists (Spec.pierced_codes (Z.to_nat (n - 1))). split.
  - now apply make_induct_one_pierced_enough.
  - intros code Hcode.
    pose proof (pierced_codes_sizes (Z.to_nat (n - 1))) as H.
    rewrite Forall_forall in H. specialize (H code Hcode). lia.
Qed.

Lemma enumerated_code_sizes_witness :
  exists codes,
    make_induct_one_pierced 3 3 = Ok codes
    /\ forall code,
        In code codes -> 3 + 1 <= Z.of_nat (length code) <= 2 * 3.
Proof.
  apply (@enumerated_code_sizes 3 3); [lia | simpl; lia].
Defined.

(** For every positive [n], every coordinate of every codeword of every
    returned code is 0 or 1. *)
Theorem enumerated_codewords_are_binary (n : Z) (fuel : nat) :
  1 <= n -> (Z.to_nat n <= fuel)%nat ->
  exists codes,
    make_induct_one_pierced fuel n = Ok codes
    /\ forall code codeword b,
        In code codes -> In codeword code -> In b codeword -> b = 0 \/ b = 1.
Proof.
  intros Hn Hf. exists (Spec.pierced_codes (Z.to_nat (n - 1))). split.
  - now apply make_induct_one_pierced_enough.
  - intros code codeword b Hcode Hword Hb.
    pose proof (pierced_codes_bits (Z.to_nat (n - 1))) as H.
    rewrite Forall_forall in H. specialize (H code Hcode).
    rewrite Forall_forall in H. specialize (H codeword Hword).
    rewrite Forall_forall in H. exact (H b Hb).
Qed.

Lemma enumerated_codewords_are_binary_witness :
  exists codes,
    make_induct_one_pierced 3 3 = Ok codes
    /\ forall code codeword b,
        In code codes -> In codeword code -> In b codeword -> b = 0 \/ b = 1.
Proof.
  apply (@enumerated_codewords_are_binary 3 3); [lia | simpl; lia].
Defined.

(** ** The one-piercings *)

Lemma list_eqb_refl (u : list Z) : Py.list_eqb u u = true.
Proof.
  induction u as [|x u IH]; simpl; [reflexivity|].
  now rewrite Z.eqb_refl, IH.
Qed.

Lemma contains_In (l : list (list Z)) (x : list Z) :
  Py.contains l x = true <-> In x l.
Proof.
  unfold Py.contains. rewrite existsb_exists. split.
  - intros [y [Hy E]]. apply list_eqb_true in E. now subst.
  - intros H. exists x. split; [exact H | apply list_eqb_refl].
Qed.

Lemma pairs_iff (C : Code) (i : nat) (p : list Z * list Z) :
  In p (Spec.pairs C i)
  <-> In (fst p) C /\ nth i (fst p) 0 = 1
      /\ snd p = Py.update (fst p) i 0 /\ In (snd p) C.
Proof.
  unfold Spec.pairs, Spec.chi. rewrite filter_In, in_map_iff, contains_In.
  split.
  - intros [[c [<- Hc]] Hin]. apply filter_In in Hc. destruct Hc as [Hc H1].
    apply Z.eqb_eq in H1. simpl in *. auto.
  - intros [Hin [H1 [Hsnd Hin2]]]. split; [|exact Hin2].
    exists (fst p). split.
    + rewrite <- Hsnd. now destruct p.
    + apply filter_In. split; [exact Hin | now apply Z.eqb_eq].
Qed.

(** For [n > 1], the codes that follow the zero-piercings in the result
    are exactly the one-piercings: a code is among them if and only if it is
    [inflate(C)] followed by [partner2 + [1]] and [partner1 + [1]], for a
    code [C] of the recursive call, a neuron [i < n - 1] and a codeword
    [partner1] of [C] with a 1 at [i] whose copy with a 0 at [i] is also in
    [C]. *)
Theorem one_piercings_pierce_pairs (n : Z) (fuel : nat) :
  1 < n -> (Z.to_nat n <= S fuel)%nat ->
  exists smaller_codes one_piercings,
    make_induct_one_pierced fuel (n - 1) = Ok smaller_codes
    /\ make_induct_one_pierced (S fuel) n
       = Ok (flat_map Spec.zero_piercings smaller_codes ++ one_piercings)
    /\ forall code,
        In code one_piercings
        <-> exists C i partner1,
              In C smaller_codes
              /\ (i < Z.to_nat (n - 1))%nat
              /\ In partner1 C
              /\ nth i partner1 0 = 1
              /\ In (Py.update partner1 i 0) C
              /\ code = map (fun c => c ++ [0]) C
                        ++ [Py.update partner1 i 0 ++ [1]; partner1 ++ [1]].
Proof.
  intros Hn Hf.
  set (k := Z.to_nat (n - 1 - 1)).
  exists (Spec.pierced_codes k),
         (flat_map (Spec.one_piercings (S k)) (Spec.pierced_codes k)).
  assert (Hsmall : make_induct_one_pierced fuel (n - 1) = Ok (Spec.pierced_codes k)).
  { now rewrite make_induct_one_pierced_enough by lia. }
  split; [exact Hsmall|]. split.
  - simpl. replace (n =? 1) with false by (symmetry; apply Z.eqb_neq; lia).
    rewrite Hsmall, bind_Ok.
    replace n with (Z.of_nat (S k) + 1) by lia.
    now rewrite (pierce_all_spec (pierced_codes_lengths k)).
  - intros code. replace (Z.to_nat (n - 1)) with (S k) by lia.
    rewrite in_flat_map. split.
    + intros [C [HC Hcode]]. unfold Spec.one_piercings in Hcode.
      apply in_flat_map in Hcode. destruct Hcode as [i [Hi Hcode]].
      apply in_seq in Hi. apply in_map_iff in Hcode.
      destruct Hcode as [p [<- Hp]]. apply pairs_iff in Hp.
      destruct Hp as [Hin [H1 [Hsnd Hin2]]].
      exists C, i, (fst p). rewrite <- Hsnd.
      repeat (split; [assumption || lia|]). reflexivity.
    + intros [C [i [p1 [HC [Hi [Hin [H1 [Hin2 ->]]]]]]]].
      exists C. split; [exact HC|]. unfold Spec.one_piercings.
      apply in_flat_map. exists i. split; [apply in_seq; lia|].
      apply in_map_iff. exists (p1, Py.update p1 i 0). split; [reflexivity|].
      apply pairs_iff. simpl. auto.
Qed.

Lemma one_piercings_pierce_pairs_witness :
  exists smaller_codes one_piercings,
    make_induct_one_pierced 1 (2 - 1) = Ok smaller_codes
    /\ make_induct_one_pierced 2 2
       = Ok (flat_map Spec.zero_piercings smaller_codes ++ one_piercings)
    /\ forall code,
        In code one_piercings
        <-> exists C i partner1,
              In C smaller_codes
              /\ (i < Z.to_nat (2 - 1))%nat
              /\ In partner1 C
              /\ nth i partner1 0 = 1
              /\ In (Py.update partner1 i 0) C
              /\ code = map (fun c => c ++ [0]) C
                        ++ [Py.update partner1 i 0 ++ [1]; partner1 ++ [1]].
Proof.
  apply (@one_piercings_pierce_pairs 2 1); [lia | simpl; lia].
Defined.

(** ** [reverse_code] as an operation on lists *)

(** [reverse_code] raises only on the empty list, where [code[0]] is an
    [IndexError]; its result has the elements of its input, as many as its
    input, and applying it twice gives the input back. *)
Theorem reverse_code_involution {A : Type} (code : list A) :
  (code = [] <-> reverse_code code = Err IndexError)
  /\ (forall e, reverse_code code = Err e -> code = [])
  /\ (forall reversed,
        reverse_code code = Ok reversed ->
        length reversed = length code
        /\ (forall x, In x reversed <-> In x code)
        /\ reverse_code reversed = Ok code).
Proof.
  destruct code as [|first remaining].
  - split; [split; reflexivity|]. split; [reflexivity|].
    intros reversed H. discriminate.
  - rewrite reverse_code_cons. split; [split; discriminate|].
    split; [discriminate|].
    intros reversed H. injection H as <-. split; [|split].
    + simpl. now rewrite length_rev.
    + intros x. simpl. now rewrite <- in_rev.
    + now rewrite reverse_code_cons, rev_involutive.
Qed.

(** ** The matrix of a code *)

Lemma nth_over_seq {A : Type} (l : list A) (d : A) :
  map (fun i => nth i l d) (seq 0 (length l)) = l.
Proof.
  induction l as [|x l IH]; simpl; [reflexivity|].
  f_equal. rewrite <- seq_shift, map_map. exact IH.
Qed.

Lemma matrix_rectangular (rows : list (list Z)) (c : nat) :
  rows <> [] -> Forall (fun r => length r = c) rows ->
  matrix rows = Ok (mkMatrix (length rows) c rows).
Proof.
  intros Hne H. destruct rows as [|r rows]; [contradiction|].
  unfold matrix.
  assert (Hr : length r = c) by now inversion H.
  replace (forallb (fun r' => Nat.eqb (length r') (length r)) (r :: rows))
    with true.
  - now rewrite Hr.
  - symmetry. apply forallb_forall. intros r' Hr'. apply Nat.eqb_eq.
    rewrite Forall_forall in H. rewrite (H r' Hr'). now symmetry.
Qed.

Lemma columns_of_transpose (rows : list (list Z)) (c : nat) :
  Forall (fun r => length r = c) rows ->
  columns (transpose (mkMatrix (length rows) c rows)) = rows.
Proof.
  intros H. unfold columns at 1. cbn [transpose ncols nrows].
  transitivity (map (fun j => nth j rows []) (seq 0 (length rows)));
    [|apply nth_over_seq].
  apply map_ext_in. intros j Hj. apply in_seq in Hj.
  unfold column at 1. cbn [transpose entries].
  unfold columns, column. cbn [entries ncols].
  rewrite map_map.
  assert (Hrow : length (nth j rows []) = c).
  { rewrite Forall_forall in H. apply H, nth_In. lia. }
  transitivity (map (fun i => nth i (nth j rows []) 0) (seq 0 c));
    [|rewrite <- Hrow; apply nth_over_seq].
  apply map_ext. intros i.
  etransitivity;
    [|apply (map_nth (fun row : list Z => nth i row 0) rows [] j)].
  f_equal. destruct i; reflexivity.
Qed.

Lemma matrix_of_code_cons (first : list Z) (remaining : list (list Z)) (c : nat) :
  remaining <> [] -> Forall (fun r => length r = c) remaining ->
  matrix_of_code (first :: remaining)
  = Ok (transpose (mkMatrix (length remaining) c (rev remaining))).
Proof.
  intros Hne H. unfold matrix_of_code.
  rewrite reverse_code_cons, bind_Ok. cbn [tl].
  rewrite (@matrix_rectangular (rev remaining) c).
  - now rewrite length_rev.
  - intros E. apply Hne. now rewrite <- (rev_involutive remaining), E.
  - now apply Forall_rev.
Qed.

Lemma code_matrix_has_reversed_columns
      (first : list Z) (remaining : list (list Z)) (c : nat) :
  remaining <> [] -> Forall (fun r => length r = c) remaining ->
  exists mat,
    matrix_of_code (first :: remaining) = Ok mat
    /\ nrows mat = c
    /\ ncols mat = length remaining
    /\ columns mat = rev remaining.
Proof.
  intros Hne H.
  exists (transpose (mkMatrix (length remaining) c (rev remaining))).
  split; [now apply matrix_of_code_cons|].
  split; [reflexivity|]. split; [reflexivity|].
  rewrite <- (length_rev remaining). apply columns_of_transpose.
  now apply Forall_rev.
Qed.

(** On a code with at least two codewords, whose codewords after the first
    all have [c] coordinates, the matrix is built without error: it has [c]
    rows and one column per codeword after the first, and its columns are
    those codewords in reverse order.  The first codeword is dropped whatever
    it is. *)
Theorem matrix_columns_are_reversed_codewords
        (first : list Z) (remaining : list (list Z)) (c : nat) :
  remaining <> [] -> Forall (fun r => length r = c) remaining ->
  exists mat,
    matrix_of_code (first :: remaining) = Ok mat
    /\ nrows mat = c
    /\ ncols mat = length remaining
    /\ columns mat = rev remaining.
Proof. apply code_matrix_has_reversed_columns. Qed.

Lemma matrix_columns_are_reversed_codewords_witness :
  exists mat,
    matrix_of_code ([0; 0] :: [[1; 0]; [0; 1]; [1; 1]]) = Ok mat
    /\ nrows mat = 2%nat
    /\ ncols mat = length [[1; 0]; [0; 1]; [1; 1]]
    /\ columns mat = rev [[1; 0]; [0; 1]; [1; 1]].
Proof.
  apply (@matrix_columns_are_reversed_codewords [0; 0] [[1; 0]; [0; 1]; [1; 1]] 2).
  - discriminate.
  - repeat (apply Forall_cons || apply Forall_nil); reflexivity.
Defined.

(** For every positive [n] and every code returned for [n], the matrix is
    built without error; it has [n] rows and [|code| - 1 >= n] columns, and
    its columns are the codewords after the first in reverse order: they are
    pairwise distinct and none of them is the all-zero codeword. *)
Theorem matrix_of_enumerated_code (n : Z) (fuel : nat) :
  1 <= n -> (Z.to_nat n <= fuel)%nat ->
  exists codes,
    make_induct_one_pierced fuel n = Ok codes
    /\ forall code,
        In code codes ->
        exists mat,
          matrix_of_code code = Ok mat
          /\ nrows mat = Z.to_nat n
          /\ ncols mat = (length code - 1)%nat
          /\ (Z.to_nat n <= ncols mat)%nat
          /\ columns mat = rev (tl code)
          /\ NoDup (columns mat)
          /\ ~ In (Spec.zero_codeword (Z.to_nat n)) (columns mat).
Proof.
  intros Hn Hf. exists (Spec.pierced_codes (Z.to_nat (n - 1))). split.
  - now apply make_induct_one_pierced_enough.
  - intros code Hcode.
    pose proof (pierced_codes_start_with_zero (Z.to_nat (n - 1))) as Hz.
    pose proof (pierced_codes_lengths (Z.to_nat (n - 1))) as Hl.
    pose proof (pierced_codes_sizes (Z.to_nat (n - 1))) as Hs.
    pose proof (pierced_codes_NoDup (Z.to_nat (n - 1))) as Hd.
    rewrite Forall_forall in Hz, Hl, Hs, Hd.
    specialize (Hl code Hcode). specialize (Hs code Hcode).
    specialize (Hd code Hcode). destruct (Hz code Hcode) as [rest ->].
    replace (S (Z.to_nat (n - 1))) with (Z.to_nat n) in * by lia.
    simpl length in Hs. inversion Hl as [|z r Hzlen Hrest]; subst z r.
    inversion Hd as [|z r Hnotin Hnodup]; subst z r.
    assert (Hne : rest <> []) by (intros ->; simpl in Hs; lia).
    destruct (code_matrix_has_reversed_columns
                (Spec.zero_codeword (Z.to_nat n)) Hne Hrest)
      as [mat [Hmat [Hr [Hc Hcols]]]].
    exists mat. split; [exact Hmat|]. split; [exact Hr|].
    simpl length. simpl tl. rewrite Hc, Hcols.
    split; [lia|]. split; [lia|]. split; [reflexivity|]. split.
    + now apply NoDup_rev.
    + now rewrite <- in_rev.
Qed.

(** ** Names of the columns of an enumerated code *)

Lemma digits_injective (u v : list Z) :
  Forall is_bit u -> Forall is_bit v ->
  fold_right String.append ""%string (map Spec.digit u)
  = fold_right String.append ""%string (map Spec.digit v) ->
  u = v.
Proof.
  intros Hu; revert v; induction Hu as [|a u Ha _ IH];
    intros v Hv; destruct Hv as [|b v Hb Hv]; simpl.
  - reflexivity.
  - destruct Hb as [-> | ->]; discriminate.
  - destruct Ha as [-> | ->]; discriminate.
  - destruct Ha as [-> | ->], Hb as [-> | ->]; simpl; intros E;
      try discriminate; injection E as E; now rewrite (IH v Hv E).
Qed.

Lemma name_of_column_injective (u v : list Z) :
  Forall is_bit u -> Forall is_bit v ->
  Spec.name_of_column u = Spec.name_of_column v -> u = v.
Proof.
  intros Hu Hv. unfold Spec.name_of_column.
  rewrite !concat_empty_separator. simpl. intros E. injection E as E.
  now apply digits_injective.
Qed.

Lemma names_NoDup (cols : list (list Z)) :
  Forall (Forall is_bit) cols -> NoDup cols ->
  NoDup (map Spec.name_of_column cols).
Proof.
  intros Hbits Hd; induction Hd as [|col cols Hnotin _ IH]; simpl;
    constructor.
  - intros Hin. apply in_map_iff in Hin. destruct Hin as [col' [E Hcol']].
    apply Hnotin. inversion Hbits as [|x l Hcol Hcols]; subst.
    rewrite Forall_forall in Hcols.
    now rewrite <- (name_of_column_injective (Hcols col' Hcol') Hcol E).
  - apply IH. now inversion Hbits.
Qed.

Lemma name_length (col : list Z) :
  Forall is_bit col -> String.length (Spec.name_of_column col) = S (length col).
Proof.
  intros H. unfold Spec.name_of_column. rewrite concat_empty_separator.
  simpl. f_equal.
  induction H as [|b col Hb _ IH]; simpl; [reflexivity|].
  destruct Hb as [-> | ->]; simpl; now rewrite IH.
Qed.

(** For every positive [n] and every code returned for [n], the string of
    names is the comma-separated list of ['y'] followed by the digits of each
    codeword after the first, last codeword first; every name has [n + 1]
    characters and no two names of one code are equal. *)
Theorem names_of_enumerated_code (n : Z) (fuel : nat) :
  1 <= n -> (Z.to_nat n <= fuel)%nat ->
  exists codes,
    make_induct_one_pierced fuel n = Ok codes
    /\ forall code,
        In code codes ->
        exists mat,
          matrix_of_code code = Ok mat
          /\ make_variable_names_from_matrix mat
             = String.concat "," (map Spec.name_of_column (rev (tl code)))
          /\ NoDup (map Spec.name_of_column (rev (tl code)))
          /\ forall name,
              In name (map Spec.name_of_column (rev (tl code))) ->
              Z.of_nat (String.length name) = n + 1.
Proof.
  intros Hn Hf. exists (Spec.pierced_codes (Z.to_nat (n - 1))). split.
  - now apply make_induct_one_pierced_enough.
  - intros code Hcode.
    pose proof (pierced_codes_start_with_zero (Z.to_nat (n - 1))) as Hz.
    pose proof (pierced_codes_lengths (Z.to_nat (n - 1))) as Hl.
    pose proof (pierced_codes_sizes (Z.to_nat (n - 1))) as Hs.
    pose proof (pierced_codes_NoDup (Z.to_nat (n - 1))) as Hd.
    pose proof (pierced_codes_bits (Z.to_nat (n - 1))) as Hb.
    rewrite Forall_forall in Hz, Hl, Hs, Hd, Hb.
    specialize (Hl code Hcode). specialize (Hs code Hcode).
    specialize (Hd code Hcode). specialize (Hb code Hcode).
    destruct (Hz code Hcode) as [rest ->].
    replace (S (Z.to_nat (n - 1))) with (Z.to_nat n) in * by lia.
    simpl length in Hs. inversion Hl as [|z r Hzlen Hrest]; subst z r.
    inversion Hd as [|z r Hnotin Hnodup]; subst z r.
    inversion Hb as [|z r Hzbits Hbits]; subst z r.
    assert (Hne : rest <> []) by (intros ->; simpl in Hs; lia).
    destruct (code_matrix_has_reversed_columns
                (Spec.zero_codeword (Z.to_nat n)) Hne Hrest)
      as [mat [Hmat [Hr [Hc Hcols]]]].
    assert (Hrev : Forall (Forall is_bit) (rev rest)) by now apply Forall_rev.
    exists mat. split; [exact Hmat|]. cbn [tl]. split; [|split].
    + rewrite variable_names_are_joined, Hcols. f_equal.
      apply map_ext_in. intros col Hcol. apply variable_name_of_bits.
      rewrite Forall_forall in Hrev. now apply Hrev.
    + apply names_NoDup; [exact Hrev | now apply NoDup_rev].
    + intros name Hname. apply in_map_iff in Hname.
      destruct Hname as [col [<- Hcol]].
      rewrite name_length by (rewrite Forall_forall in Hrev; now apply Hrev).
      apply in_rev in Hcol. unfold codewords_have_length in Hrest.
      rewrite Forall_forall in Hrest. rewrite (Hrest col Hcol). lia.
Qed.

Lemma names_of_enumerated_code_witness :
  exists codes,
    make_induct_one_pierced 3 3 = Ok codes
    /\ forall code,
        In code codes ->
        exists mat,
          matrix_of_code code = Ok mat
          /\ make_variable_names_from_matrix mat
             = String.concat "," (map Spec.name_of_column (rev (tl code)))
          /\ NoDup (map Spec.name_of_column (rev (tl code)))
          /\ forall name,
              In name (map Spec.name_of_column (rev (tl code))) ->
              Z.of_nat (String.length name) = 3 + 1.
Proof.
  apply (@names_of_enumerated_code 3 3); [lia | simpl; lia].
Defined.

Lemma matrix_of_enumerated_code_witness :
  exists codes,
    make_induct_one_pierced 3 3 = Ok codes
    /\ forall code,
        In code codes ->
        exists mat,
          matrix_of_code code = Ok mat
          /\ nrows mat = Z.to_nat 3
          /\ ncols mat = (length code - 1)%nat
          /\ (Z.to_nat 3 <= ncols mat)%nat
          /\ columns mat = rev (tl code)
          /\ NoDup (columns mat)
          /\ ~ In (Spec.zero_codeword (Z.to_nat 3)) (columns mat).
Proof.
  apply (@matrix_of_enumerated_code 3 3); [lia | simpl; lia].
Defined.

(** ** The table as a function of its list of codes *)

Section TableFacts.

Variables ideal polynomial basis : Type.
Variable ToricIdeal : Matrix -> string -> result ideal.
Variable gens : ideal -> list polynomial.
Variable degree : polynomial -> Z.
Variable groebner_basis : ideal -> basis.

Let the_table := make_table_toric_degrees ToricIdeal gens degree groebner_basis.
Let the_clean := clean_rows ToricIdeal gens degree groebner_basis.
Let records := Spec.records_of ToricIdeal gens degree groebner_basis.
Let record := Spec.compute_toric_record ToricIdeal gens degree groebner_basis.

Lemma clean_is_kept_records (code_list : list Code) :
  the_clean code_list = (rs <- records code_list ;; Ok (Spec.kept rs)).
Proof.
  unfold the_clean, records. now rewrite clean_rows_are_kept_records.
Qed.

Lemma table_is_kept_records (code_list : list Code) :
  the_table code_list = (rs <- records code_list ;; table (Spec.kept rs)).
Proof.
  unfold the_table, make_table_toric_degrees.
  fold the_clean. rewrite clean_is_kept_records.
  now destruct (records code_list).
Qed.

Lemma table_returns (R : Type) (rows rows' : list R) :
  table rows = Ok rows' -> rows' = rows /\ rows <> [].
Proof.
  destruct rows as [|r rows]; simpl; [discriminate|].
  intros H. injection H as <-. split; [reflexivity | discriminate].
Qed.

Lemma kept_app (R : Type) (xs ys : list (option R)) :
  Spec.kept (xs ++ ys) = Spec.kept xs ++ Spec.kept ys.
Proof.
  induction xs as [|[r|] xs IH]; simpl; [reflexivity | now rewrite IH | exact IH].
Qed.

Lemma kept_length (R : Type) (xs : list (option R)) :
  (length (Spec.kept xs) <= length xs)%nat.
Proof.
  induction xs as [|[r|] xs IH]; simpl; lia.
Qed.

Lemma records_app (l1 l2 : list Code) :
  records (l1 ++ l2)
  = (rs1 <- records l1 ;; rs2 <- records l2 ;; Ok (rs1 ++ rs2)).
Proof.
  unfold records. induction l1 as [|code l1 IH]; cbn [app Spec.records_of].
  - rewrite bind_Ok. now destruct (Spec.records_of _ _ _ _ l2).
  - destruct (Spec.compute_toric_record _ _ _ _ code) as [r|e]; [|reflexivity].
    rewrite !bind_Ok, IH.
    destruct (Spec.records_of _ _ _ _ l1) as [rs1|e]; [|reflexivity].
    rewrite !bind_Ok.
    destruct (Spec.records_of _ _ _ _ l2) as [rs2|e]; reflexivity.
Qed.

Lemma records_length (code_list : list Code) (rs : list (option (table_row basis))) :
  records code_list = Ok rs -> length rs = length code_list.
Proof.
  unfold records. revert rs; induction code_list as [|code rest IH]; intros rs;
    cbn [Spec.records_of].
  - intros H. now injection H as <-.
  - destruct (Spec.compute_toric_record _ _ _ _ code) as [r|e]; [|discriminate].
    rewrite bind_Ok.
    destruct (Spec.records_of _ _ _ _ rest) as [rs'|e]; [|discriminate].
    rewrite bind_Ok. intros H. injection H as <-. simpl. now rewrite (IH rs').
Qed.

Lemma kept_from (code_list : list Code) (rs : list (option (table_row basis)))
      (row : table_row basis) :
  records code_list = Ok rs -> In row (Spec.kept rs) ->
  exists code, In code code_list /\ record code = Ok (Some row).
Proof.
  unfold records, record.
  revert rs; induction code_list as [|code rest IH]; intros rs;
    cbn [Spec.records_of].
  - intros H. injection H as <-. intros [].
  - destruct (Spec.compute_toric_record _ _ _ _ code) as [r|e] eqn:Er;
      [|discriminate].
    rewrite bind_Ok.
    destruct (Spec.records_of _ _ _ _ rest) as [rs'|e]; [|discriminate].
    rewrite bind_Ok. intros H. injection H as <-. intros Hin.
    assert (Hrest : In row (Spec.kept rs') ->
                    exists code0, In code0 (code :: rest)
                                  /\ Spec.compute_toric_record
                                       ToricIdeal gens degree groebner_basis code0
                                     = Ok (Some row)).
    { intros Hin'. destruct (IH rs' eq_refl Hin') as [code0 [H0 H1]].
      exists code0. split; [now right | exact H1]. }
    destruct r as [r|]; [|now apply Hrest].
    destruct Hin as [->|Hin]; [|now apply Hrest].
    exists code. split; [now left | exact Er].
Qed.

Lemma record_Some (code : Code) (row : table_row basis) :
  record code = Ok (Some row) ->
  exists toric_ideal,
    matrix_of_code code = Ok (row_matrix row)
    /\ ToricIdeal (row_matrix row)
                  (make_variable_names_from_matrix (row_matrix row))
       = Ok toric_ideal
    /\ degrees_of gens degree toric_ideal <> [-1]
    /\ row_groebner_basis row = groebner_basis toric_ideal
    /\ Py.max (degrees_of gens degree toric_ideal) = Ok (row_max_degree row).
Proof.
  unfold record, Spec.compute_toric_record, degrees_of.
  destruct (matrix_of_code code) as [mat|e]; [|discriminate].
  rewrite bind_Ok.
  destruct (ToricIdeal mat (make_variable_names_from_matrix mat))
    as [toric_ideal|e] eqn:Et; [|discriminate].
  rewrite bind_Ok. cbv zeta.
  destruct (Py.list_eqb (map degree (gens toric_ideal)) [-1]) eqn:E;
    [discriminate|].
  destruct (Py.max (map degree (gens toric_ideal))) as [m|e] eqn:Em;
    [|discriminate].
  rewrite bind_Ok. intros H. injection H as <-.
  cbn [row_matrix row_groebner_basis row_max_degree].
  exists toric_ideal. split; [reflexivity|]. split; [exact Et|]. split.
  - intros Heq. rewrite Heq in E. discriminate.
  - split; [reflexivity | exact Em].
Qed.


End TableFacts.


(** When the tables of two lists are both returned, the table of their
    concatenation is returned and holds the rows of the first followed by the
    rows of the second: the loop keeps no state from one code to the next. *)
Theorem table_of_concatenation
        (ideal polynomial basis : Type)
        (ToricIdeal : Matrix -> string -> result ideal)
        (gens : ideal -> list polynomial) (degree : polynomial -> Z)
        (groebner_basis : ideal -> basis) (l1 l2 : list Code)
        (rows1 rows2 : list (table_row basis)) :
  make_table_toric_degrees ToricIdeal gens degree groebner_basis l1 = Ok rows1 ->
  make_table_toric_degrees ToricIdeal gens degree groebner_basis l2 = Ok rows2 ->
  make_table_toric_degrees ToricIdeal gens degree groebner_basis (l1 ++ l2)
  = Ok (rows1 ++ rows2).
Proof.
  rewrite !table_is_kept_records, records_app.
  destruct (Spec.records_of ToricIdeal gens degree groebner_basis l1)
    as [rs1|e]; [|discriminate].
  destruct (Spec.records_of ToricIdeal gens degree groebner_basis l2)
    as [rs2|e]; [|discriminate].
  rewrite !bind_Ok. intros H1 H2.
  apply table_returns in H1, H2. destruct H1 as [-> Hne], H2 as [-> _].
  rewrite kept_app. destruct (Spec.kept rs1); [contradiction | reflexivity].
Qed.

Lemma table_of_concatenation_witness :
  make_table_toric_degrees toy_ToricIdeal (fun I : list Z => I)
                           (fun d : Z => d) (fun I => length I)
                           (toy_code_list ++ toy_code_list)
  = Ok (toy_rows ++ toy_rows).
Proof.
  apply (@table_of_concatenation
           (list Z) Z nat toy_ToricIdeal (fun I => I) (fun d => d)
           (fun I => length I) toy_code_list toy_code_list toy_rows toy_rows);
    reflexivity.
Defined.

(** When the table is returned, it has at most one row per code, and every
    row comes from a code of the list: its matrix is the matrix of that code,
    its basis is the Groebner basis of the ideal [ToricIdeal] returned for
    that matrix and its names, the degree list of that ideal is not [[-1]]
    and the third field is [max] of it. *)
Theorem table_rows_come_from_codes
        (ideal polynomial basis : Type)
        (ToricIdeal : Matrix -> string -> result ideal)
        (gens : ideal -> list polynomial) (degree : polynomial -> Z)
        (groebner_basis : ideal -> basis) (code_list : list Code)
        (rows : list (table_row basis)) :
  make_table_toric_degrees ToricIdeal gens degree groebner_basis code_list
  = Ok rows ->
  (length rows <= length code_list)%nat
  /\ forall row,
      In row rows ->
      exists code toric_ideal,
        In code code_list
        /\ matrix_of_code code = Ok (row_matrix row)
        /\ ToricIdeal (row_matrix row)
                      (make_variable_names_from_matrix (row_matrix row))
           = Ok toric_ideal
        /\ degrees_of gens degree toric_ideal <> [-1]
        /\ row_groebner_basis row = groebner_basis toric_ideal
        /\ Py.max (degrees_of gens degree toric_ideal)
           = Ok (row_max_degree row).
Proof.
  rewrite table_is_kept_records.
  destruct (Spec.records_of ToricIdeal gens degree groebner_basis code_list)
    as [rs|e] eqn:Ers; [|discriminate].
  rewrite bind_Ok. intros H. apply table_returns in H. destruct H as [-> _].
  split.
  - rewrite <- (records_length _ _ _ _ _ Ers). apply kept_length.
  - intros row Hrow.
    destruct (kept_from _ _ _ _ _ _ Ers Hrow) as [code [Hcode Hrec]].
    destruct (@record_Some _ _ _ ToricIdeal gens degree groebner_basis
                           code row Hrec) as [I HI].
    exists code, I. split; [exact Hcode | exact HI].
Qed.

Lemma table_rows_come_from_codes_witness :
  (length toy_rows <= length toy_code_list)%nat
  /\ forall row,
      In row toy_rows ->
      exists code toric_ideal,
        In code toy_code_list
        /\ matrix_of_code code = Ok (row_matrix row)
        /\ toy_ToricIdeal (row_matrix row)
                          (make_variable_names_from_matrix (row_matrix row))
           = Ok toric_ideal
        /\ degrees_of (fun I : list Z => I) (fun d : Z => d) toric_ideal <> [-1]
        /\ row_groebner_basis row = length toric_ideal
        /\ Py.max (degrees_of (fun I : list Z => I) (fun d : Z => d) toric_ideal)
           = Ok (row_max_degree row).
Proof.
  apply (@table_rows_come_from_codes
           (list Z) Z nat toy_ToricIdeal (fun I => I) (fun d => d)
           (fun I => length I) toy_code_list toy_rows).
  reflexivity.
Defined.




(** An empty code in the list makes the table fail with the [IndexError]
    of [code[0]], once the loop has processed the codes before it without an
    exception; the codes after it are never looked at. *)
Theorem table_fails_on_empty_code
        (ideal polynomial basis : Type)
        (ToricIdeal : Matrix -> string -> result ideal)
        (gens : ideal -> list polynomial) (degree : polynomial -> Z)
        (groebner_basis : ideal -> basis) (before after : list Code)
        (rows : list (table_row basis)) :
  clean_rows ToricIdeal gens degree groebner_basis before = Ok rows ->
  make_table_toric_degrees ToricIdeal gens degree groebner_basis
                           (before ++ [] :: after)
  = Err IndexError.
Proof.
  rewrite clean_is_kept_records, table_is_kept_records, records_app.
  destruct (Spec.records_of ToricIdeal gens degree groebner_basis before)
    as [rs|e]; [|discriminate].
  intros _. reflexivity.
Qed.

Lemma table_fails_on_empty_code_witness :
  make_table_toric_degrees toy_ToricIdeal (fun I : list Z => I)
                           (fun d : Z => d) (fun I => length I)
                           (toy_code_list ++ [] :: toy_code_list)
  = Err IndexError.
Proof.
  apply (@table_fails_on_empty_code
           (list Z) Z nat toy_ToricIdeal (fun I => I) (fun d => d)
           (fun I => length I) toy_code_list toy_code_list toy_rows).
  reflexivity.
Defined.

(** ** Names of an arbitrary integer matrix *)

(** Whatever the integer entries of the matrix, the string of names is the
    comma-separated list of ['y'] followed by [str] of the entries of each
    column; it is the empty string exactly when the matrix has no column, in
    which case [names[:-1]] is taken of the empty string. *)
Theorem variable_names_of_integer_matrix (mat : Matrix) :
  make_variable_names_from_matrix mat
  = String.concat ","
      (map (fun col => ("y" ++ String.concat "" (map Py.str col))%string)
           (columns mat))
  /\ (make_variable_names_from_matrix mat = ""%string <-> columns mat = []).
Proof.
  assert (E : make_variable_names_from_matrix mat
              = String.concat ","
                  (map (fun col =>
                          ("y" ++ String.concat "" (map Py.str col))%string)
                       (columns mat))).
  { rewrite variable_names_are_joined. f_equal. apply map_ext. intros col.
    unfold variable_name. now rewrite name_loop, concat_empty_separator. }
  split; [exact E|]. rewrite E.
  destruct (columns mat) as [|col [|col' cols]]; simpl.
  - split; reflexivity.
  - split; discriminate.
  - split; discriminate.
Qed.

(** ** Every neuron is active *)

Lemma inflate_keeps_active (k : nat) (C tail : Code) (last : list Z) :
  every_neuron_active k C ->
  codewords_have_length (S k) (Spec.inflate C ++ tail ++ [last ++ [1]]) ->
  length last = k ->
  every_neuron_active (S k) (Spec.inflate C ++ tail ++ [last ++ [1]]).
Proof.
  intros [Hlen Hact] Hlen' Hlast. split; [exact Hlen'|].
  intros j Hj. destruct (Nat.eq_dec j k) as [->|Hne].
  - exists (last ++ [1]). split.
    + apply in_or_app. right. apply in_or_app. right. now left.
    + rewrite app_nth2 by lia. rewrite Hlast, Nat.sub_diag. reflexivity.
  - destruct (Hact j) as [c [Hc H1]]; [lia|].
    exists (c ++ [0]). split.
    + apply in_or_app. left. unfold Spec.inflate.
      apply in_map_iff. exists c. auto.
    + rewrite app_nth1; [exact H1|].
      unfold codewords_have_length in Hlen. rewrite Forall_forall in Hlen.
      rewrite (Hlen c Hc). lia.
Qed.

Lemma pierced_codes_active (k : nat) :
  Forall (every_neuron_active (S k)) (Spec.pierced_codes k).
Proof.
  induction k as [|k IH]; simpl Spec.pierced_codes.
  - constructor; [|constructor]. split.
    + repeat constructor.
    + intros j Hj. exists [1]. split; [now right; left|].
      replace j with O by lia. reflexivity.
  - eapply pierce_Forall; [exact IH | |].
    + intros C d HC Hd.
      apply (@inflate_keeps_active (S k) C [] d HC).
      * pose proof (zero_piercings_lengths (proj1 HC)) as H.
        unfold Spec.zero_piercings in H. rewrite Forall_map, Forall_forall in H.
        exact (H d Hd).
      * destruct HC as [Hlen _]. unfold codewords_have_length in Hlen.
        rewrite Forall_forall in Hlen. now apply Hlen.
    + intros C i p HC Hp.
      apply (@inflate_keeps_active (S k) C [snd p ++ [1]] (fst p) HC).
      * pose proof (one_piercings_lengths (S i) (proj1 HC)) as H.
        rewrite Forall_forall in H. apply H.
        unfold Spec.one_piercings. apply in_flat_map. exists i. split.
        -- apply in_seq. lia.
        -- apply in_map_iff. exists p. split; [reflexivity | exact Hp].
      * apply pairs_members in Hp. destruct Hp as [Hin _].
        destruct HC as [Hlen _]. unfold codewords_have_length in Hlen.
        rewrite Forall_forall in Hlen. now apply Hlen.
Qed.

(** For every positive [n], every code returned for [n] has, for each of
    the [n] neurons, a codeword with a 1 at that neuron: no row of the matrix
    of the code is zero. *)
Theorem every_neuron_is_active (n : Z) (fuel : nat) :
  1 <= n -> (Z.to_nat n <= fuel)%nat ->
  exists codes,
    make_induct_one_pierced fuel n = Ok codes
    /\ forall code j,
        In code codes -> 0 <= j < n ->
        exists codeword, In codeword code /\ Py.getitem codeword j = Ok 1.
Proof.
  intros Hn Hf. exists (Spec.pierced_codes (Z.to_nat (n - 1))). split.
  - now apply make_induct_one_pierced_enough.
  - intros code j Hcode Hj.
    pose proof (pierced_codes_active (Z.to_nat (n - 1))) as H.
    rewrite Forall_forall in H. destruct (H code Hcode) as [Hlen Hact].
    destruct (Hact (Z.to_nat j)) as [c [Hc H1]]; [lia|].
    exists c. split; [exact Hc|].
    unfold codewords_have_length in Hlen. rewrite Forall_forall in Hlen.
    replace j with (Z.of_nat (Z.to_nat j)) by lia.
    rewrite (getitem_in_bounds c 0) by (rewrite (Hlen c Hc); lia).
    now rewrite H1.
Qed.

Lemma every_neuron_is_active_witness :
  exists codes,
    make_induct_one_pierced 3 3 = Ok codes
    /\ forall code j,
        In code codes -> 0 <= j < 3 ->
        exists codeword, In codeword code /\ Py.getitem codeword j = Ok 1.
Proof.
  apply (@every_neuron_is_active 3 3); [lia | simpl; lia].
Defined.
